(** * slingr-mcp: the documentation retrieval core ([src/rag.ts]) and the
    code around it

    A shallow embedding of [RAGSystem] (chunking, ingestion, search and the
    readiness flag) together with the properties its specification states
    about it, and of the code that surrounds it: the stand-alone ingestion
    script, the tools and prompt handlers of the server, and the Slingr
    client.

    Definitions:
    - [Js]: JavaScript strings as lists of UTF-16 code units, and the three
      library calls the chunker is made of ([split] on [/^#+\s/gm], [trim],
      [length]);
    - [Chunker]: the chunking expression of [ingest()], and header lines and
      headed sections as the specification speaks of them;
    - [Rag]: the class itself, as computations over the object and an
      explicit model of its collaborators (corpus directory, vector store,
      embedding model);
    - [Layout]: where segments and chunks lie in a document;
    - [Script]: [main()] of [scripts/ingest-docs.ts];
    - [Tools]: the tools [search_documentation] and [ingest_documentation];
    - [Prompts]: the prompt handlers of the server;
    - [Value]: JavaScript values as JSON gives them;
    - [Client]: the configuration and [loginToSlingr] of
      [src/slingr-client.ts];
    - [Permissions], [ShowPermissions]: the tools
      [update_entity_permissions] and [get_entity_permissions];
    - [Examples], [Failures], [PermissionsExamples]: concrete documents,
      worlds and answers.

    Theorems:
    - [JsFacts], [ChunkerFacts], [ChunkerSpec]: [split] computes the split
      at header markers; what [chunk] returns;
    - [RagFacts], [RagSpec]: what [initialize], [search] and [ingest] do to
      the object and to the store; readiness;
    - [LayoutFacts], [ChunkerExtra], [RagExtra]: the layout of the chunks,
      the contents of the index, failures of the file system and the model;
    - [ScriptFacts], [ScriptSpec]: the script against [ingest];
    - [ToolsSpec], [PromptsSpec], [ClientSpec]: the guards of the
      documentation tools, the prompts, the client;
    - [PermissionsFacts], [PermissionsSpec], [ShowPermissionsFacts],
      [ShowPermissionsSpec]: the payload of a permission update, and the
      agreement of the two permission tools. *)

From Stdlib Require Import ZArith NArith Lia Floats.
From stdpp Require Import base list strings gmap pretty.

Open Scope nat_scope.

(* ===================================================================== *)
(** ** JavaScript strings *)
(* ===================================================================== *)

Module Js.

(** A JavaScript string is a sequence of UTF-16 code units; [length] counts
    code units. *)
Definition code_unit : Type := N.
Abbreviation jsstring := (list code_unit).

(** An ASCII literal as a JavaScript string. *)
Definition of_string (s : string) : jsstring :=
  Ascii.N_of_ascii <$> String.list_ascii_of_string s.

Definition LF : code_unit := 10%N.
Definition hash : code_unit := 35%N.

Definition is_hash (c : code_unit) : bool := (c =? hash)%N.

(** ECMAScript [LineTerminator]: LF, CR, LS, PS. With the [m] flag, [^]
    matches at index 0 and right after one of these. *)
Definition is_line_terminator (c : code_unit) : bool :=
  ((c =? 0x0A) || (c =? 0x0D) || (c =? 0x2028) || (c =? 0x2029))%N.

(** ECMAScript [WhiteSpace]: TAB, VT, FF, SP, NBSP, ZWNBSP and the Unicode
    space separators. *)
Definition is_white_space (c : code_unit) : bool :=
  ((c =? 0x09) || (c =? 0x0B) || (c =? 0x0C) || (c =? 0x20) || (c =? 0xA0)
   || (c =? 0x1680) || ((0x2000 <=? c) && (c <=? 0x200A))
   || (c =? 0x202F) || (c =? 0x205F) || (c =? 0x3000) || (c =? 0xFEFF))%N.

(** The class [\s] of regular expressions, which is also what
    [String.prototype.trim] strips: [WhiteSpace] or [LineTerminator]. *)
Definition is_space (c : code_unit) : bool :=
  is_white_space c || is_line_terminator c.

(** *** [String.prototype.trim] *)

Fixpoint trim_start (s : jsstring) : jsstring :=
  match s with
  | c :: s' => if is_space c then trim_start s' else s
  | [] => []
  end.

Definition trim_end (s : jsstring) : jsstring :=
  reverse (trim_start (reverse s)).

Definition trim (s : jsstring) : jsstring := trim_end (trim_start s).

(** *** The matcher of [/^#+\s/m]

    [hash_run s] is the greedy [#+]: the number of leading ['#'] of [s].
    Backtracking to a shorter run cannot help, because the unit after a
    shorter run is a ['#'], which [\s] rejects. *)
Fixpoint hash_run (s : jsstring) : nat :=
  match s with
  | c :: s' => if is_hash c then S (hash_run s') else 0
  | [] => 0
  end.

(** [#+\s] at the head of [s]: the length of the run, the unit matched by
    [\s] and what follows the match. *)
Definition marker_split (s : jsstring) : option (nat * code_unit * jsstring) :=
  match hash_run s with
  | 0 => None
  | S _ as k =>
      match drop k s with
      | w :: r => if is_space w then Some (k, w, r) else None
      | [] => None
      end
  end.

(** The assertion [^] under the [m] flag at index [q] of [str]. *)
Definition at_line_start (str : jsstring) (q : nat) : bool :=
  match q with
  | 0 => true
  | S q' => match str !! q' with
            | Some c => is_line_terminator c
            | None => false
            end
  end.

(** A sticky match attempt at index [q], as [split] runs the pattern: the
    end index of the match, if there is one. *)
Definition header_exec (str : jsstring) (q : nat) : option nat :=
  if at_line_start str q then
    match marker_split (drop q str) with
    | Some (k, _, _) => Some (q + k + 1)
    | None => None
    end
  else None.

(** *** [String.prototype.split] with that pattern

    [substring str p q] is the units of [str] from index [p] up to [q]. *)
Definition substring (str : jsstring) (p q : nat) : jsstring :=
  take (q - p) (drop p str).

(** The loop of [RegExp.prototype[@@split]]: [p] is the start of the segment
    being collected, [q] the index where the next match is attempted. The
    pattern has no capture group, so only the segments are pushed. Every
    iteration moves [q] forward, so [length str] rounds are enough. *)
Fixpoint split_loop (fuel : nat) (str : jsstring) (p q : nat) : list jsstring :=
  match fuel with
  | 0 => [substring str p (length str)]
  | S fuel' =>
      if decide (q < length str) then
        match header_exec str q with
        | None => split_loop fuel' str p (q + 1)
        | Some e =>
            if decide (e = p) then split_loop fuel' str p (q + 1)
            else substring str p q :: split_loop fuel' str e e
        end
      else [substring str p (length str)]
  end.

(** [str.split(/^#+\s/gm)]. For the empty string the specification of [split]
    tries the pattern once; it cannot match the empty string, so the result
    is the one-element array holding the empty string. *)
Definition split_header (str : jsstring) : list jsstring :=
  match str with
  | [] => [[]]
  | _ => split_loop (length str) str 0 0
  end.

End Js.

(* ===================================================================== *)
(** ** The chunker *)
(* ===================================================================== *)

Module Chunker.
Import Js.

(** [rag.ts], lines 79-82:
    [content.split(/^#+\s/gm).map(c => c.trim()).filter(c => c.length > 50)] *)
Definition chunk (content : jsstring) : list jsstring :=
  filter (λ c, 50 < length c) (trim <$> split_header content).

(** *** Header lines, in the words of the specification

    A header line begins with one or more ['#'] followed by whitespace. The
    text [s] is looked at together with the code unit [prev] that precedes it
    ([None] at the start of the document): a line begins at the start of the
    document and after a line terminator. *)
Definition begins_line (prev : option code_unit) : bool :=
  match prev with
  | None => true
  | Some c => is_line_terminator c
  end.

Definition header_at (prev : option code_unit) (s : jsstring) : Prop :=
  begins_line prev = true ∧
  ∃ k w r, 0 < k ∧ is_space w = true ∧ s = replicate k hash ++ w :: r.

(** The code unit before the text that follows [l], when [prev] is the one
    before [l]. *)
Definition last_unit (prev : option code_unit) (l : jsstring) : option code_unit :=
  match last l with
  | Some c => Some c
  | None => prev
  end.

(** [HeaderSplit prev s segs]: [segs] are the segments of [s] between the
    header markers, in document order. A marker ends the segment before it
    and is itself dropped; every other code unit goes to the segment it
    stands in. *)
Inductive HeaderSplit : option code_unit → jsstring → list jsstring → Prop :=
| HeaderSplit_end prev :
    HeaderSplit prev [] [[]]
| HeaderSplit_marker prev k w rest segs :
    begins_line prev = true →
    0 < k →
    is_space w = true →
    HeaderSplit (Some w) rest segs →
    HeaderSplit prev (replicate k hash ++ w :: rest) ([] :: segs)
| HeaderSplit_unit prev c rest seg segs :
    ¬ header_at prev (c :: rest) →
    HeaderSplit (Some c) rest (seg :: segs) →
    HeaderSplit prev (c :: rest) ((c :: seg) :: segs).

(** A document without header lines: no position of it begins one. *)
Definition no_header_line (text : jsstring) : Prop :=
  ∀ pre suf, text = pre ++ suf → ¬ header_at (last_unit None pre) suf.

(** The chunker as the specification words it, with the length rule left
    open: split at the header lines, trim, keep the segments of an accepted
    length, in document order. *)
Definition chunks_by_rule (keep : nat → bool) (text : jsstring)
    (chunks : list jsstring) : Prop :=
  ∃ segs, HeaderSplit None text segs ∧
          chunks = filter (λ c, keep (length c) = true) (trim <$> segs).

(** "Segments shorter than a minimum length (50 characters) are dropped":
    a segment of exactly 50 code units is kept. *)
Definition MIN_CHUNK_LENGTH : nat := 50.
Definition not_shorter_than_minimum (n : nat) : bool := MIN_CHUNK_LENGTH <=? n.

(** What the code keeps: segments of more than 50 code units. *)
Definition longer_than_minimum (n : nat) : bool := MIN_CHUNK_LENGTH <? n.

(** *** Headed sections

    [headed_section text w sect post]: somewhere in [text] a header line
    begins with a marker whose whitespace unit is [w]; [sect] is everything
    between that marker and the next header line (or the end of the
    document), and [post] is what follows. *)
Definition headed_section (text : jsstring) (w : code_unit)
    (sect post : jsstring) : Prop :=
  ∃ pre k,
    text = pre ++ replicate k hash ++ w :: sect ++ post ∧
    0 < k ∧ is_space w = true ∧
    begins_line (last_unit None pre) = true ∧
    (∀ s1 s2, sect = s1 ++ s2 → s2 ≠ [] →
              ¬ header_at (last_unit (Some w) s1) (s2 ++ post)) ∧
    (post = [] ∨ header_at (last_unit (Some w) sect) post).

(** The body of a headed section: the header line carries the [title] after
    its marker, the line terminator [t] ends the header line, and [body] is
    what follows that line, up to the next header line or the end. *)
Definition section_with_body (text : jsstring) (title : jsstring)
    (t : code_unit) (body : jsstring) : Prop :=
  ∃ w post,
    headed_section text w (title ++ t :: body) post ∧
    is_line_terminator w = false ∧
    Forall (λ c, is_line_terminator c = false) title ∧
    is_line_terminator t = true.

(** *** The loop of [split], seen from the text

    Two notions that relate the indices of the loop to the text it scans. *)

(** The code unit before index [q] of [str]. *)
Definition unit_before (str : jsstring) (q : nat) : option code_unit :=
  match q with
  | 0 => None
  | S q' => str !! q'
  end.

(** The segment being collected, put in front of what the rest yields. *)
Definition prepend (pre : jsstring) (segs : list jsstring) : list jsstring :=
  match segs with
  | seg :: rest => (pre ++ seg) :: rest
  | [] => [pre]
  end.

End Chunker.
(* ===================================================================== *)
(** ** The retrieval system ([class RAGSystem]) *)
(* ===================================================================== *)

Module Rag.
Import Js Chunker.

(** *** Data *)

(** A JavaScript [number] is an IEEE 754 double. *)
Definition number : Type := float.

(** A row of the index: [{ vector: number[], text: string, source: string }]. *)
Record Row := {
  vector : list number;
  text : jsstring;
  source : string;
}.

(** A row as a nearest-neighbour query returns it, with its [_distance]. *)
Record Hit := {
  hit_row : Row;
  distance : number;
}.

(** What [search] returns for a hit: [{ text, source, score }]. *)
Record SearchResult := {
  result_text : jsstring;
  result_source : string;
  score : number;
}.

Definition shape (r : Hit) : SearchResult :=
  {| result_text := text (hit_row r);
     result_source := source (hit_row r);
     score := distance r |}.

Abbreviation Tables := (gmap string (list Row)).

(** *** Errors *)

(** What a collaborator (vector store, embedding model, file system) may
    raise. *)
Inductive ExtError :=
| TableNotFound (name : string)
| IoFailure (detail : string).

(** What a method of [RAGSystem] may end with: an [Error] thrown by
    [rag.ts] itself, the [TypeError] of a call through an undefined field, or
    an error raised by a collaborator and passed on. *)
Inductive JsError :=
| Error (message : string)
| TypeError
| External (e : ExtError).

(** [rag.ts] line 40 and line 97. *)
Definition not_ready_message : string := "RAG system is not ready.".
Definition no_content_message : string :=
  "⚠️ No content found to ingest. Make sure you have .md files in the docs/ folder.".

(** *** The collaborators *)

(** The calls [RAGSystem] makes outside itself; the world decides which of
    them fail. *)
Inductive ExtOp :=
| OpConnect
| OpPipeline
| OpTableNames
| OpGlob
| OpReadFile (file : string)
| OpEmbed (input : jsstring)
| OpOpenTable (name : string)
| OpVectorSearch (name : string) (limit : Z)
| OpDropTable (name : string)
| OpCreateTable (name : string).

(** The calls made on the vector store, as they are logged. *)
Inductive StoreCall :=
| CallConnect
| CallTableNames
| CallOpenTable (name : string)
| CallVectorSearch (name : string) (queryVector : list number) (limit : Z)
| CallDropTable (name : string)
| CallCreateTable (name : string) (rows : list Row).

(** Everything outside the [RAGSystem] object.
    - [docs]: the markdown files under [DOCS_DIR], by relative path;
    - [tables]: the tables stored under [DB_PATH];
    - [embedding]: what the feature-extraction pipeline computes for a text
      (mean pooling, normalised); a function, so identical input gives an
      identical vector;
    - [nearest]: the answer of the store to
      [vectorSearch(v).limit(k).toArray()] over the rows of a table;
    - [fault]: the external calls that fail, and how;
    - [store_log]: the calls made on the store so far;
    - [visible]: the successive states of the store, one per completed
      write; a reader sees the store in one of them. Each call on the store
      is one step: no state between two of them is ever visible. *)
Record World := {
  docs : gmap string jsstring;
  tables : Tables;
  embedding : jsstring → list number;
  nearest : list Row → list number → Z → list Hit;
  fault : ExtOp → option ExtError;
  store_log : list StoreCall;
  visible : list Tables;
}.

Definition log_call (c : StoreCall) (w : World) : World :=
  {| docs := docs w; tables := tables w; embedding := embedding w;
     nearest := nearest w; fault := fault w;
     store_log := store_log w ++ [c]; visible := visible w |}.

Definition write_tables (t : Tables) (w : World) : World :=
  {| docs := docs w; tables := t; embedding := embedding w;
     nearest := nearest w; fault := fault w;
     store_log := store_log w; visible := visible w ++ [t] |}.

(** *** The object *)

Inductive Connection := LanceDb.
Inductive Pipeline := FeatureExtraction.

(** The fields of [RAGSystem]; [db] and [embedder] are undefined until
    assigned. *)
Record RAGSystem := {
  db : option Connection;
  embedder : option Pipeline;
  ready : bool;
}.

(** [new RAGSystem()]: [ready] starts [false]. *)
Definition new_RAGSystem : RAGSystem :=
  {| db := None; embedder := None; ready := false |}.

Definition set_db (c : Connection) (s : RAGSystem) : RAGSystem :=
  {| db := Some c; embedder := embedder s; ready := ready s |}.
Definition set_embedder (p : Pipeline) (s : RAGSystem) : RAGSystem :=
  {| db := db s; embedder := Some p; ready := ready s |}.
Definition set_ready (b : bool) (s : RAGSystem) : RAGSystem :=
  {| db := db s; embedder := embedder s; ready := b |}.

(** *** Computations: state and exceptions

    A method runs on the object and the world; what it assigned and wrote
    before an exception stays. *)
Definition State : Type := RAGSystem * World.
Definition M (A : Type) : Type := State → State * (JsError + A).

Definition ret {A} (a : A) : M A := λ σ, (σ, inr a).
Definition throw {A} (e : JsError) : M A := λ σ, (σ, inl e).
Definition bind {A B} (m : M A) (k : A → M B) : M B :=
  λ σ, match m σ with
       | (σ', inr a) => k a σ'
       | (σ', inl e) => (σ', inl e)
       end.
Definition try_catch {A} (m : M A) (handler : JsError → M A) : M A :=
  λ σ, match m σ with
       | (σ', inl e) => handler e σ'
       | r => r
       end.

Notation "'let*' x ':=' m 'in' k" := (bind m (λ x, k))
  (at level 10, x name, m at level 100, k at level 200).
Notation "m ';;' k" := (bind m (λ _, k))
  (at level 100, k at level 200, right associativity).

Definition this : M RAGSystem := λ σ, (σ, inr σ.1).
Definition assign (f : RAGSystem → RAGSystem) : M unit :=
  λ σ, ((f σ.1, σ.2), inr tt).
Definition world : M World := λ σ, (σ, inr σ.2).
Definition update_world (f : World → World) : M unit :=
  λ σ, ((σ.1, f σ.2), inr tt).

(** An external call fails when the world says so. *)
Definition external (op : ExtOp) : M unit :=
  λ σ, match fault σ.2 op with
       | Some e => (σ, inl (External e))
       | None => (σ, inr tt)
       end.

Fixpoint foldM {A B} (f : B → A → M B) (l : list A) (acc : B) : M B :=
  match l with
  | [] => ret acc
  | x :: l' => let* acc' := f acc x in foldM f l' acc'
  end.

(** *** The vector store

    The store is the LanceDB library, which is not part of the repository.
    Every call on it is logged, fails when the world says so, and is one
    step: a reader sees the store before the call or after it. *)

(** [lancedb.connect(DB_PATH)] *)
Definition connect : M Connection :=
  update_world (log_call CallConnect);;
  external OpConnect;;
  ret LanceDb.

(** [db.tableNames()] *)
Definition tableNames : M (list string) :=
  update_world (log_call CallTableNames);;
  external OpTableNames;;
  let* w := world in
  ret (elements (dom (tables w))).

(** [db.openTable(name)]; the handle of a table is its name. Opening a
    table that does not exist fails. *)
Definition openTable (name : string) : M string :=
  update_world (log_call (CallOpenTable name));;
  external (OpOpenTable name);;
  let* w := world in
  match tables w !! name with
  | Some _ => ret name
  | None => throw (External (TableNotFound name))
  end.

(** [table.vectorSearch(queryVector).limit(limit).toArray()]: the answer is
    the world's, for the limit as it is given. *)
Definition vectorSearch (table : string) (queryVector : list number)
    (limit : Z) : M (list Hit) :=
  update_world (log_call (CallVectorSearch table queryVector limit));;
  external (OpVectorSearch table limit);;
  let* w := world in
  match tables w !! table with
  | Some rows => ret (nearest w rows queryVector limit)
  | None => throw (External (TableNotFound table))
  end.

(** [db.dropTable(name)]: removes the table. On a missing table it raises
    [TableNotFound]: that is the failure the handler in [ingest] is there
    for ("Ignore if table doesn't exist"). *)
Definition dropTable (name : string) : M unit :=
  update_world (log_call (CallDropTable name));;
  external (OpDropTable name);;
  let* w := world in
  match tables w !! name with
  | Some _ => update_world (write_tables (delete name (tables w)))
  | None => throw (External (TableNotFound name))
  end.

(** Modelled from the spec: [db.createTable(name, rows)], section 4.3,
    "creates a table from a sequence of rows, replacing any existing table
    of the same name", in one bulk write. *)
Definition createTable (name : string) (rows : list Row) : M unit :=
  update_world (log_call (CallCreateTable name rows));;
  external (OpCreateTable name);;
  let* w := world in
  update_world (write_tables (<[name := rows]> (tables w))).

(** *** The corpus directory and the embedding model *)

(** [glob('**/*.md', { cwd: DOCS_DIR })] *)
Definition glob : M (list string) :=
  external OpGlob;;
  let* w := world in
  ret ((map_to_list (docs w)).*1).

(** [fs.readFileSync(path.join(DOCS_DIR, file), 'utf-8')] *)
Definition readFileSync (file : string) : M jsstring :=
  external (OpReadFile file);;
  let* w := world in
  match docs w !! file with
  | Some content => ret content
  | None => throw (External (IoFailure "ENOENT"))
  end.

(** [pipeline('feature-extraction', 'Xenova/all-MiniLM-L6-v2')] *)
Definition pipeline : M Pipeline :=
  external OpPipeline;;
  ret FeatureExtraction.

(** [Array.from((await this.embedder(input, { pooling: 'mean', normalize:
    true })).data)]; calling an undefined [embedder] is a [TypeError]. *)
Definition call_embedder (input : jsstring) : M (list number) :=
  let* s := this in
  match embedder s with
  | None => throw TypeError
  | Some _ =>
      external (OpEmbed input);;
      let* w := world in
      ret (embedding w input)
  end.

(** A method called on [this.db]; on an undefined [db] it is a
    [TypeError]. *)
Definition on_db {A} (method : M A) : M A :=
  let* s := this in
  match db s with
  | None => throw TypeError
  | Some _ => method
  end.

(** *** The methods of [RAGSystem] *)

(** [initialize()], lines 15-32. The handler logs and rethrows. *)
Definition initialize : M unit :=
  try_catch
    (let* conn := connect in
     assign (set_db conn);;
     let* p := pipeline in
     assign (set_embedder p);;
     let* names := on_db tableNames in
     if bool_decide ("documentation" ∈ names)
     then assign (set_ready true)
     else ret tt)
    (λ e, throw e).

(** [isReady()], lines 34-36. *)
Definition isReady : M bool :=
  let* s := this in
  ret (ready s).

(** [search(query, limit = 3)], lines 38-56. *)
Definition default_limit : Z := 3.

Definition search (query : jsstring) (limit : Z) : M (list SearchResult) :=
  let* s := this in
  if negb (ready s) then throw (Error not_ready_message)
  else
    let* queryVector := call_embedder query in
    let* table := on_db (openTable "documentation") in
    let* results := vectorSearch table queryVector limit in
    ret (shape <$> results).

(** The body of the inner loop, lines 84-93: embed the chunk and push the
    row. *)
Definition push_chunk (file : string) (data : list Row) (c : jsstring)
    : M (list Row) :=
  let* v := call_embedder c in
  ret (data ++ [{| vector := v; text := c; source := file |}]).

(** The body of the outer loop, lines 73-94. *)
Definition ingest_file (data : list Row) (file : string) : M (list Row) :=
  let* content := readFileSync file in
  foldM (push_chunk file) (chunk content) data.

(** [ingest()], lines 58-111. *)
Definition ingest : M nat :=
  (let* s := this in
   match db s with
   | None => let* conn := connect in assign (set_db conn)
   | Some _ => ret tt
   end);;
  (let* s := this in
   match embedder s with
   | None => let* p := pipeline in assign (set_embedder p)
   | Some _ => ret tt
   end);;
  let* files := glob in
  let* data := foldM ingest_file files [] in
  if decide (length data = 0) then throw (Error no_content_message)
  else
    try_catch (on_db (dropTable "documentation")) (λ _, ret tt);;
    on_db (createTable "documentation" data);;
    assign (set_ready true);;
    ret (length data).

(** *** What a run of [ingest] is expected to write *)

(** No external call fails. *)
Definition healthy (w : World) : Prop := ∀ op, fault w op = None.

(** The rows of one document: one per chunk, in order, each with the
    embedding of its text and the document's path. *)
Definition rows_of (w : World) (file : string) (content : jsstring) : list Row :=
  (λ c, {| vector := embedding w c; text := c; source := file |}) <$> chunk content.

(** The rows of the whole corpus, in the order [glob] lists the files. *)
Definition corpus_rows (w : World) : list Row :=
  flat_map (λ fc, rows_of w fc.1 fc.2) (map_to_list (docs w)).

(** A corpus none of whose documents yields a chunk (in particular a corpus
    without documents). *)
Definition no_eligible_chunk (w : World) : Prop :=
  ∀ file content, docs w !! file = Some content → chunk content = [].

(** A store whose queries return at most [limit] rows for a positive
    [limit]. *)
Definition honours_limit (w : World) : Prop :=
  ∀ rows v limit, (0 < limit)%Z → length (nearest w rows v limit) ≤ Z.to_nat limit.

(** *** A process: the calls made on the one [ragSystem] object *)

Inductive Call :=
| Initialize
| IsReady
| Search (query : jsstring) (limit : Z)
| Ingest.

Inductive Value :=
| Done
| Ready (b : bool)
| Results (rs : list SearchResult)
| Count (n : nat).

Definition perform (c : Call) : M Value :=
  match c with
  | Initialize => initialize;; ret Done
  | IsReady => let* b := isReady in ret (Ready b)
  | Search query limit => let* rs := search query limit in ret (Results rs)
  | Ingest => let* n := ingest in ret (Count n)
  end.

(** The calls of a process in order, with what each returned or threw. *)
Fixpoint run (calls : list Call) (σ : State) : State * list (JsError + Value) :=
  match calls with
  | [] => (σ, [])
  | c :: calls' =>
      let '(σ', r) := perform c σ in
      let '(σ'', rs) := run calls' σ' in
      (σ'', r :: rs)
  end.

(** A process starts with a fresh object. *)
Definition start (w : World) : State := (new_RAGSystem, w).

(** *** The phases of [ingest]

    The body of [ingest] in three parts, and the outcome of the last one
    written out; [RagFacts.ingest_phases] and [RagFacts.store_run] relate
    them to [ingest]. *)

(** [outcome w r v]: the result [r] is the value [v], unless an external
    call failed, which takes a world that is not healthy. *)
Definition outcome {A} (w : World) (r : JsError + A) (v : A) : Prop :=
  r = inr v ∨ (∃ x, r = inl (External x)) ∧ ¬ healthy w.

(** Lines 61-66: connect and load the model unless already done. *)
Definition prepare : M unit :=
  (let* s := this in
   match db s with
   | None => let* conn := connect in assign (set_db conn)
   | Some _ => ret tt
   end);;
  (let* s := this in
   match embedder s with
   | None => let* p := pipeline in assign (set_embedder p)
   | Some _ => ret tt
   end).

(** Lines 68-94: list the files and accumulate their rows. *)
Definition collect : M (list Row) :=
  let* files := glob in
  foldM ingest_file files [].

(** Lines 96-110: refuse an empty corpus, replace the table, mark ready. *)
Definition store (data : list Row) : M nat :=
  if decide (length data = 0) then throw (Error no_content_message)
  else
    try_catch (on_db (dropTable "documentation")) (λ _, ret tt);;
    on_db (createTable "documentation" data);;
    assign (set_ready true);;
    ret (length data).

(** The world after the guarded [dropTable]: the call is logged; the table
    goes only when the call does not fail and the table is there. Whatever
    [dropTable] raises is caught and dropped. *)
Definition after_drop (w : World) : World :=
  let w1 := log_call (CallDropTable "documentation") w in
  match fault w (OpDropTable "documentation"), tables w !! "documentation" with
  | None, Some _ => write_tables (delete "documentation" (tables w)) w1
  | _, _ => w1
  end.

(** The world after a [createTable] that went through. *)
Definition after_create (data : list Row) (w : World) : World :=
  write_tables (<["documentation" := data]> (tables w))
    (log_call (CallCreateTable "documentation" data) w).

(** The outcome of lines 100-110 on the rows [data]. *)
Definition replaced (data : list Row) (s : RAGSystem) (w : World)
    : State * (JsError + nat) :=
  match fault w (OpCreateTable "documentation") with
  | Some e =>
      ((s, log_call (CallCreateTable "documentation" data) (after_drop w)),
       inl (External e))
  | None =>
      ((set_ready true s, after_create data (after_drop w)), inr (length data))
  end.

End Rag.

(* ===================================================================== *)
(** ** Segments and chunks inside the document *)
(* ===================================================================== *)

Module Layout.
Import Js.

(** A header marker as [split] removes it: one or more ['#'] and one
    whitespace unit. *)
Definition is_marker (m : jsstring) : Prop :=
  ∃ k w, 0 < k ∧ is_space w = true ∧ m = replicate k hash ++ [w].

(** [Tiles segs s]: [s] is the segments [segs] in order, with one header
    marker between each two neighbours and nothing else. *)
Inductive Tiles : list jsstring → jsstring → Prop :=
| Tiles_last seg :
    Tiles [seg] seg
| Tiles_more seg m segs rest :
    is_marker m → Tiles segs rest → Tiles (seg :: segs) (seg ++ m ++ rest).

(** [InOrder cs s]: the strings [cs] occur in [s] one after the other,
    without overlap. *)
Inductive InOrder : list jsstring → jsstring → Prop :=
| InOrder_nil s :
    InOrder [] s
| InOrder_cons c cs pre rest :
    InOrder cs rest → InOrder (c :: cs) (pre ++ c ++ rest).

(** No whitespace at either end. *)
Definition trimmed (s : jsstring) : Prop :=
  (∀ c, head s = Some c → is_space c = false) ∧
  (∀ c, last s = Some c → is_space c = false).

End Layout.

(* ===================================================================== *)
(** ** The stand-alone script (scripts/ingest-docs.ts)

    [main()] is the pipeline of [RAGSystem.ingest] without the object: the
    connection and the model are local constants, there is no flag, and an
    empty corpus is a warning, not an error. It runs in the same monad; the
    object component of the state is not its own and it never touches it. *)
(* ===================================================================== *)

Module Script.
Import Js Chunker Rag.

(** [Array.from((await extractor(input, { pooling: 'mean', normalize:
    true })).data)], lines 45-46; [extractor] is a constant of [main]. *)
Definition call_extractor (extractor : Pipeline) (input : jsstring)
    : M (list number) :=
  external (OpEmbed input);;
  let* w := world in
  ret (embedding w input).

(** The body of the inner loop, lines 43-53. *)
Definition push_chunk (extractor : Pipeline) (file : string) (data : list Row)
    (c : jsstring) : M (list Row) :=
  let* v := call_extractor extractor c in
  ret (data ++ [{| vector := v; text := c; source := file |}]).

(** The body of the outer loop, lines 29-54. *)
Definition process_file (extractor : Pipeline) (data : list Row)
    (file : string) : M (list Row) :=
  let* content := readFileSync file in
  foldM (push_chunk extractor file) (chunk content) data.

(** [main()], lines 11-72. *)
Definition main : M unit :=
  let* db := connect in
  let* extractor := pipeline in
  let* files := glob in
  let* data := foldM (process_file extractor) files [] in
  if decide (length data = 0) then ret tt
  else
    try_catch (dropTable "documentation") (λ _, ret tt);;
    createTable "documentation" data.

(** A result that is a value or the error of an external call. *)
Definition external_failure {A} (r : JsError + A) : Prop :=
  match r with
  | inl e => ∃ x, e = External x
  | inr _ => True
  end.

End Script.

(* ===================================================================== *)
(** ** Concrete documents *)
(* ===================================================================== *)

Module Examples.
Import Js Rag.

(** Fifty letters ['a'], no header line: a segment of exactly the minimum
    length. *)
Definition fifty_letters : jsstring := replicate 50 97%N.

(** Sixty letters ['b']. *)
Definition sixty_letters : jsstring := replicate 60 98%N.

(** ["# Title\n"] followed by sixty letters: one header line with a body of
    sixty code units. *)
Definition titled_document : jsstring :=
  of_string "# Title" ++ LF :: sixty_letters.

(** The two documents of the specification's scenario. *)
Definition guide_md : jsstring :=
  of_string "# Setup" ++ LF :: of_string "Run the installer and accept defaults.".

Definition notes_md : jsstring :=
  of_string "# X" ++ LF :: of_string "short".

(** A store that answers a query with the first [limit] rows of the table,
    and an embedding model that maps every text to the same vector. *)
Definition first_rows (rows : list Row) (v : list number) (limit : Z) : list Hit :=
  (λ r, {| hit_row := r; distance := 0%float |}) <$> take (Z.to_nat limit) rows.

Definition flat_embedding (input : jsstring) : list number := [1%float; 0%float].

(** No external call fails. *)
Definition no_fault (op : ExtOp) : option ExtError := None.

(** The storage fails on [dropTable]. *)
Definition drop_fails (op : ExtOp) : option ExtError :=
  match op with
  | OpDropTable _ => Some (IoFailure "EIO")
  | _ => None
  end.

Definition make_world (docs : gmap string jsstring) (tables : Tables)
    (fault : ExtOp → option ExtError) : World :=
  {| docs := docs; tables := tables; embedding := flat_embedding;
     nearest := first_rows; fault := fault; store_log := []; visible := [] |}.

Definition old_row (n : nat) : Row :=
  {| vector := [0%float; 1%float]; text := replicate n 99%N; source := "old.md" |}.

(** An index of five rows left by an earlier process. *)
Definition old_index : Tables :=
  {[ "documentation" := old_row <$> [61; 62; 63; 64; 65] ]}.

(** The corpus of the specification's scenario, nothing stored yet. *)
Definition scenario_world : World :=
  make_world {[ "guide.md" := guide_md; "notes.md" := notes_md ]} ∅ no_fault.

(** One document with one eligible chunk, nothing stored yet. *)
Definition first_run_world : World :=
  make_world {[ "manual.md" := titled_document ]} ∅ no_fault.

(** The same corpus, with the index of an earlier process in the store. *)
Definition indexed_world : World :=
  make_world {[ "manual.md" := titled_document ]} old_index no_fault.

(** The same corpus on a storage where [dropTable] fails with an I/O
    error; nothing is stored yet. *)
Definition failing_drop_world : World :=
  make_world {[ "manual.md" := titled_document ]} ∅ drop_fails.

(** The storage fails on [createTable]. *)
Definition create_fails (op : ExtOp) : option ExtError :=
  match op with
  | OpCreateTable _ => Some (IoFailure "ENOSPC")
  | _ => None
  end.

Definition failing_create_world : World :=
  make_world {[ "manual.md" := titled_document ]} old_index create_fails.

(** The scenario's two short documents, with an index in the store. *)
Definition short_corpus_world : World :=
  make_world {[ "guide.md" := guide_md; "notes.md" := notes_md ]} old_index no_fault.

(** An object that has connected, loaded the model and become ready. *)
Definition ready_system : RAGSystem :=
  {| db := Some LanceDb; embedder := Some FeatureExtraction; ready := true |}.

(** An index in the store and no document to ingest. *)
Definition empty_corpus_world : World := make_world ∅ old_index no_fault.

(** The row [ingest] makes of [titled_document]. *)
Definition manual_row : Row :=
  {| vector := [1%float; 0%float];
     text := of_string "Title" ++ LF :: sixty_letters;
     source := "manual.md" |}.

End Examples.

(* ===================================================================== *)
(** ** The documentation tools (tools.ts)

    [search_documentation] and [ingest_documentation] are the two tools
    that call [ragSystem]; they run on the same object and world. *)
(* ===================================================================== *)

Module Tools.
Import Js Chunker Rag.

(** [{ type: "text", text }] *)
Inductive Content := TextContent (text : jsstring).

(** [{ content: any[], isError?: boolean }] *)
Record ToolResult := {
  content : list Content;
  isError : option bool;
}.

(** [{ content: [{ type: "text", text }] }] *)
Definition text_result (text : jsstring) : ToolResult :=
  {| content := [TextContent text]; isError := None |}.

(** The argument of [search_documentation] as its guard
    [!args || typeof args.query !== 'string'] reads it: a falsy value, or a
    truthy one with a string under [query] or with anything else there. *)
Inductive Args :=
| NoArgs
| WithArgs (query : option jsstring).

Definition loading_message : jsstring :=
  of_string "Error: RAG system is still loading. Please wait.".
Definition query_required_message : jsstring :=
  of_string "Error: Query string required.".

(** [Array.prototype.join] on strings. *)
Fixpoint join (separator : jsstring) (parts : list jsstring) : jsstring :=
  match parts with
  | [] => []
  | [p] => p
  | p :: ps => p ++ separator ++ join separator ps
  end.

(** [String(count)] for an array length. *)
Definition decimal (n : nat) : jsstring := of_string (pretty n).

Section SearchDocumentation.

(** [path.basename] of Node's library, on the [source] of a row. *)
Variable basename : string → jsstring.

(** The template of lines 294-296. *)
Definition block (r : SearchResult) : jsstring :=
  of_string "--- SOURCE: " ++ basename (result_source r) ++ of_string " ---"
    ++ [LF] ++ result_text r ++ [LF].

(** [search_documentation.execute], lines 284-299. *)
Definition search_documentation (args : Args) : M ToolResult :=
  let* r := isReady in
  if negb r then ret (text_result loading_message)
  else
    match args with
    | WithArgs (Some query) =>
        let* results := search query default_limit in
        ret (text_result (join [LF] (block <$> results)))
    | _ => ret (text_result query_required_message)
    end.

End SearchDocumentation.

(** [ingest_documentation.execute], lines 490-495. *)
Definition ingest_documentation : M ToolResult :=
  let* count := ingest in
  ret (text_result
         (of_string "Documentation ingested successfully! " ++ decimal count
            ++ of_string " chunks saved.")).

End Tools.

(* ===================================================================== *)
(** ** The prompt handlers of the server (index.ts) *)
(* ===================================================================== *)

Module Prompts.
Import Js.

Definition quote : code_unit := 34%N.

(** An entry of the [arguments] of a prompt, and a prompt as
    [ListPrompts] announces it. *)
Record PromptArgument := {
  argument_name : string;
  argument_description : string;
  required : bool;
}.

Record Prompt := {
  name : string;
  description : string;
  arguments : list PromptArgument;
}.

(** The handler of [ListPromptsRequestSchema], lines 90-117. *)
Definition list_prompts : list Prompt :=
  [ {| name := "create_entity_with_fields";
       description :=
         "Assists in creating a new Slingr entity and defining its initial fields.";
       arguments :=
         [ {| argument_name := "entityLabel";
              argument_description := "Label for the new entity";
              required := true |} ] |};
    {| name := "debug_slingr_script";
       description :=
         "Provides context for debugging a Slingr script using the documentation.";
       arguments :=
         [ {| argument_name := "scriptSnippet";
              argument_description := "The script snippet to debug";
              required := true |} ] |} ].

(** [request.params.arguments]: undefined, or a record of strings. *)
Abbreviation PromptArguments := (option (gmap jsstring jsstring)).

(** [args?.key || fallback]: the empty string is falsy. *)
Definition argument_or (args : PromptArguments) (key : string)
    (fallback : jsstring) : jsstring :=
  match args with
  | None => fallback
  | Some record =>
      match record !! of_string key with
      | Some (c :: value) => c :: value
      | _ => fallback
      end
  end.

(** [{ role: "user", content: { type: "text", text } }] *)
Inductive Message := UserText (text : jsstring).

(** [throw new Error(message)] *)
Inductive Thrown := ThrownError (message : jsstring).

(** The template of lines 130-132. *)
Definition create_entity_text (entityLabel : jsstring) : jsstring :=
  of_string "I want to create a new Slingr entity called "
    ++ [quote] ++ entityLabel ++ [quote] ++ of_string ". " ++ [LF]
    ++ of_string "Please help me decide on a camelCase name and identify the essential fields it should have. "
    ++ [LF]
    ++ of_string "You can use the 'search_documentation' tool to look up field types and 'create_entity' to create it when we are ready.".

(** The template of line 147. *)
Definition debug_script_text (scriptSnippet : jsstring) : jsstring :=
  of_string "I'm having trouble with this Slingr script:" ++ [LF; LF]
    ++ of_string "```javascript" ++ [LF] ++ scriptSnippet ++ [LF]
    ++ of_string "```" ++ [LF; LF]
    ++ of_string "Please search the documentation for relevant API methods and help me fix it.".

(** The handler of [GetPromptRequestSchema], lines 119-155. *)
Definition get_prompt (name : jsstring) (args : PromptArguments)
    : Thrown + list Message :=
  if decide (name = of_string "create_entity_with_fields") then
    let entityLabel := argument_or args "entityLabel" (of_string "New Entity") in
    inr [UserText (create_entity_text entityLabel)]
  else if decide (name = of_string "debug_slingr_script") then
    let scriptSnippet := argument_or args "scriptSnippet" [] in
    inr [UserText (debug_script_text scriptSnippet)]
  else inl (ThrownError (of_string "Prompt not found: " ++ name)).

(** An argument that is missing or empty. *)
Definition left_out (args : PromptArguments) (key : string) : Prop :=
  match args with
  | None => True
  | Some record =>
      record !! of_string key = None ∨ record !! of_string key = Some []
  end.

End Prompts.

(* ===================================================================== *)
(** ** JavaScript values, as JSON gives them *)
(* ===================================================================== *)

Module Value.
Import Js.

(** What [JSON.parse] returns, and [undefined]. An object is the list of
    its own properties; it is read by name only. *)
#[warnings="-register-all"] Inductive Value :=
| VUndefined
| VNull
| VBool (b : bool)
| VNumber (x : float)
| VString (s : jsstring)
| VArray (items : list Value)
| VObject (fields : list (jsstring * Value)).

(** [ToBoolean] *)
Definition truthy (v : Value) : bool :=
  match v with
  | VUndefined | VNull => false
  | VBool b => b
  | VNumber x => (x =? x)%float && negb (x =? 0)%float
  | VString s => negb (bool_decide (s = []))
  | VArray _ | VObject _ => true
  end.

(** [a || b] *)
Definition or (a b : Value) : Value := if truthy a then a else b.

(** [Array.isArray] *)
Definition isArray (v : Value) : bool :=
  match v with
  | VArray _ => true
  | _ => false
  end.

(** The own property [key] of an object. *)
Fixpoint lookup_field (key : jsstring) (fields : list (jsstring * Value))
    : option Value :=
  match fields with
  | [] => None
  | (k, v) :: fields' =>
      if decide (k = key) then Some v else lookup_field key fields'
  end.

(** [v.key], for the names the program reads ([token]; [items],
    [permissions], [fields], [views], [actions]; [id], [name], [label],
    [group], [type], [permission] and the five [can...] rules): none of
    them is defined on a prototype or is an index, so the value is the own
    property of an object and [undefined] on anything else; [None] is the
    [TypeError] of reading a property of [undefined] or [null]. *)
Definition get (v : Value) (key : string) : option Value :=
  match v with
  | VUndefined | VNull => None
  | VObject fields => Some (default VUndefined (lookup_field (of_string key) fields))
  | _ => Some VUndefined
  end.

(** [v?.key] *)
Definition get_optional (v : Value) (key : string) : Value :=
  default VUndefined (get v key).

(** [v === s] for a string [s]. *)
Definition is_string (v : Value) (s : jsstring) : bool :=
  match v with
  | VString s' => bool_decide (s' = s)
  | _ => false
  end.

(** [object[key] = v]: an own property keeps its place, a new one comes
    last. *)
Fixpoint set_field (key : jsstring) (v : Value)
    (fields : list (jsstring * Value)) : list (jsstring * Value) :=
  match fields with
  | [] => [(key, v)]
  | (k, v') :: fields' =>
      if decide (k = key) then (k, v) :: fields'
      else (k, v') :: set_field key v fields'
  end.

(** [{ ...a, ...b }] of two objects. *)
Definition spread (a b : list (jsstring * Value)) : list (jsstring * Value) :=
  foldl (λ acc kv, set_field kv.1 kv.2 acc) a b.

End Value.

(* ===================================================================== *)
(** ** The Slingr client (slingr-client.ts) *)
(* ===================================================================== *)

Module Client.
Import Js Value.

(** What the module throws: [new Error(message)], or the [TypeError] of
    [new URL] on a string that is no URL. *)
Inductive Thrown :=
| ThrownError (message : jsstring)
| ThrownTypeError.

(** [process.env]: a variable is a string or undefined. *)
Definition Env : Type := string → option jsstring.

(** [!a] for a string or undefined. *)
Definition falsy (a : option jsstring) : bool :=
  match a with
  | Some (_ :: _) => false
  | _ => true
  end.

(** [a || b] *)
Definition or_else (a b : option jsstring) : option jsstring :=
  if falsy a then b else a.

(** [s.replace(pattern, replacement)] for a string pattern and a
    replacement without ['$']: the first occurrence is replaced. *)
Fixpoint replace (pattern replacement s : jsstring) : jsstring :=
  if bool_decide (take (length pattern) s = pattern)
  then replacement ++ drop (length pattern) s
  else match s with
       | [] => []
       | c :: s' => c :: replace pattern replacement s'
       end.

(** Lines 6-9. *)
Definition SLINGR_BUILDER_API_URL (env : Env) : option jsstring :=
  or_else (env "SLINGR_BUILDER_API_URL") (env "SLINGR_API_URL").

Definition SLINGR_RUNTIME_API_URL (env : Env) : option jsstring :=
  or_else (env "SLINGR_RUNTIME_API_URL")
    (replace (of_string "/builder/api") (of_string "/runtime/api")
       <$> SLINGR_BUILDER_API_URL env).

Definition SLINGR_EMAIL (env : Env) : option jsstring := env "SLINGR_EMAIL".
Definition SLINGR_PASSWORD (env : Env) : option jsstring := env "SLINGR_PASSWORD".

(** An Axios instance, as far as the program configures it: [baseURL] and
    [defaults.headers.common["token"]]. *)
Record AxiosInstance := {
  baseURL : jsstring;
  token : Value;
}.

Record Clients := {
  builderClient : AxiosInstance;
  runtimeClient : AxiosInstance;
}.

Definition not_defined_message : jsstring :=
  of_string "Error: SLINGR_EMAIL, SLINGR_PASSWORD, SLINGR_BUILDER_API_URL or SLINGR_RUNTIME_API_URL not defined in .env".

(** Loading the module, lines 11-27: the guard, then the two clients. *)
Definition load (env : Env) : Thrown + Clients :=
  if falsy (SLINGR_EMAIL env) || falsy (SLINGR_PASSWORD env)
     || falsy (SLINGR_BUILDER_API_URL env) || falsy (SLINGR_RUNTIME_API_URL env)
  then inl (ThrownError not_defined_message)
  else
    match SLINGR_BUILDER_API_URL env, SLINGR_RUNTIME_API_URL env with
    | Some builder, Some runtime =>
        inr {| builderClient := {| baseURL := builder; token := VUndefined |};
               runtimeClient := {| baseURL := runtime; token := VUndefined |} |}
    | _, _ => inl (ThrownError not_defined_message)
    end.

(** *** [loginToSlingr] *)

(** A response of the server, and the error Axios rejects with: it carries
    the response when the server answered with an error status, and none
    when the request did not get through. *)
Record AxiosResponse := {
  status : nat;
  data : Value;
}.

Record AxiosError := {
  response : option AxiosResponse;
  message : jsstring;
}.

Section Login.

(** The platform and the network: [new URL(s).origin] ([None] when the
    constructor throws), [JSON.stringify], and what
    [axios.post(url, { email, password })] comes to. *)
Variable origin : jsstring → option jsstring.
Variable stringify : Value → jsstring.
Variable post : jsstring → jsstring → jsstring → AxiosError + AxiosResponse.

Definition no_token_message : jsstring :=
  of_string "Login response did not contain a token.".

(** The [try] block, lines 34-52; what it throws is what the handler
    catches. *)
Definition attempt (loginUrl email password : jsstring) (clients : Clients)
    : Clients * (AxiosError + unit) :=
  match post loginUrl email password with
  | inl error => (clients, inl error)
  | inr response =>
      let token := get_optional (data response) "token" in
      if negb (truthy token)
      then (clients, inl {| response := None; message := no_token_message |})
      else
        ({| builderClient :=
              {| baseURL := baseURL (builderClient clients); token := token |};
            runtimeClient :=
              {| baseURL := baseURL (runtimeClient clients); token := token |} |},
         inr tt)
  end.

(** The handler, lines 54-59. *)
Definition handler (error : AxiosError) : Thrown :=
  let errorMsg :=
    match response error with
    | Some r =>
        of_string "Status: " ++ Tools.decimal (status r) ++ of_string ", Body: "
          ++ stringify (data r)
    | None => message error
    end in
  ThrownError (of_string "Failed to login to Slingr API: " ++ errorMsg).

(** [loginToSlingr()], lines 29-60, for the builder URL, the credentials
    and [process.env.SLINGR_LOGIN_URL]. *)
Definition loginToSlingr (builder email password : jsstring)
    (SLINGR_LOGIN_URL : option jsstring) (clients : Clients)
    : Clients * (Thrown + unit) :=
  match origin builder with
  | None => (clients, inl ThrownTypeError)
  | Some o =>
      let defaultLoginUrl := o ++ of_string "/dev/builder/api/auth/login" in
      let loginUrl :=
        match SLINGR_LOGIN_URL with
        | Some (c :: url) => c :: url
        | _ => defaultLoginUrl
        end in
      match attempt loginUrl email password clients with
      | (clients', inl error) => (clients', inl (handler error))
      | (clients', inr _) => (clients', inr tt)
      end
  end.

End Login.

End Client.

(* ===================================================================== *)
(** ** Concrete worlds with a failing file system or model *)
(* ===================================================================== *)

Module Failures.
Import Js Rag Examples.

(** The file system fails on reading ["manual.md"]. *)
Definition read_fails (op : ExtOp) : option ExtError :=
  match op with
  | OpReadFile file =>
      if decide (file = "manual.md") then Some (IoFailure "EACCES") else None
  | _ => None
  end.

(** The index of an earlier process, and a corpus whose one document cannot
    be read. *)
Definition unreadable_world : World :=
  make_world {[ "manual.md" := titled_document ]} old_index read_fails.

End Failures.

(* ===================================================================== *)
(** ** [update_entity_permissions] (tools.ts) *)
(* ===================================================================== *)

Module Permissions.
Import Js Value.

(** What [execute] throws: an [Error] of its own, the [TypeError] of reading
    a property of [undefined] or [null], or the error Axios rejects with. *)
Inductive Thrown :=
| ThrownError (message : jsstring)
| ThrownTypeError
| Rejected (error : Client.AxiosError).

(** The requests made on [builderClient]. *)
Inductive Request :=
| GET (url : jsstring)
| PUT (url : jsstring) (payload : Value).

(** The arguments once [schema.parse] has accepted them. *)
Record Input := {
  entityId : jsstring;
  group : jsstring;
  updates : list (jsstring * Value);
}.

Definition bind {A B} (m : Thrown + A) (k : A → Thrown + B) : Thrown + B :=
  match m with
  | inl e => inl e
  | inr a => k a
  end.

Notation "'do' x '<-' m ';' k" := (bind m (λ x, k))
  (at level 10, x name, m at level 100, k at level 200).

(** [v.key], throwing on [undefined] and [null]. *)
Definition read (v : Value) (key : string) : Thrown + Value :=
  match get v key with
  | Some x => inr x
  | None => inl ThrownTypeError
  end.

(** [a || b], where [b] is evaluated only if [a] is [false]. *)
Definition or_lazy (a b : Thrown + bool) : Thrown + bool :=
  do x <- a; if (x : bool) then inr true else b.

(** The predicate of lines 120-121 (and 152-153). *)
Definition names_group (g : jsstring) (p : Value) : Thrown + bool :=
  or_lazy (do v <- read p "name"; inr (is_string v g))
 (or_lazy (do v <- read p "id"; inr (is_string v g))
 (or_lazy (do v <- read p "label"; inr (is_string v g))
 (or_lazy (do v <- read p "group"; inr (is_string (get_optional v "name") g))
 (or_lazy (do v <- read p "group"; inr (is_string (get_optional v "id") g))
          (do v <- read p "group"; inr (is_string (get_optional v "label") g)))))).

(** [Array.prototype.findIndex], from index [i] on; [None] is [-1]. *)
Fixpoint findIndex_from (i : nat) (predicate : Value → Thrown + bool)
    (items : list Value) : Thrown + option nat :=
  match items with
  | [] => inr None
  | p :: items' =>
      do found <- predicate p;
      if (found : bool) then inr (Some i)
      else findIndex_from (S i) predicate items'
  end.

Definition findIndex := findIndex_from 0.

(** [Array.prototype.find]; [undefined] when no element is found. *)
Fixpoint find (predicate : Value → Thrown + bool) (items : list Value)
    : Thrown + Value :=
  match items with
  | [] => inr VUndefined
  | p :: items' =>
      do found <- predicate p;
      if (found : bool) then inr p else find predicate items'
  end.

(** The own enumerable properties [{ ...v }] copies: the fields of an
    object, the elements of an array and the code units of a string under
    their indices, nothing of anything else. *)
Definition own_fields (v : Value) : list (jsstring * Value) :=
  match v with
  | VObject fields => fields
  | VArray items => imap (λ i x, (Tools.decimal i, x)) items
  | VString s => imap (λ i c, (Tools.decimal i, VString [c])) s
  | _ => []
  end.

Definition cannot_parse_message : jsstring :=
  of_string "Could not parse permissions array from Slingr API response or permissions array is empty.".

Definition not_found_message (g : jsstring) : jsstring :=
  of_string "Group '" ++ g ++ of_string "' not found in entity permissions.".

(** Line 113. *)
Definition permissionsArray (data : Value) : Thrown + Value :=
  do items <- read data "items";
  if truthy items then inr items
  else
    do permissions <- read data "permissions";
    if truthy permissions then inr permissions
    else inr (if isArray data then data else VArray []).

(** Lines 115-117. *)
Definition checked (array : Value) : Thrown + list Value :=
  match array with
  | VArray (p :: items) => inr (p :: items)
  | _ => inl (ThrownError cannot_parse_message)
  end.

(** Lines 119-126. *)
Definition groupIndex (g : jsstring) (items : list Value) : Thrown + nat :=
  do found <- findIndex (names_group g) items;
  match found with
  | Some i => inr i
  | None => inl (ThrownError (not_found_message g))
  end.

(** Lines 128-131: the element at the index becomes the old one with the
    updates spread over it. *)
Definition updated (i : nat) (changes : list (jsstring * Value))
    (items : list Value) : list Value :=
  match items !! i with
  | Some old => <[i := VObject (spread (own_fields old) changes)]> items
  | None => items
  end.

(** Lines 133-145. *)
Definition payload_of (data : Value) (array : Value) : Value :=
  if isArray data then array
  else if truthy (get_optional data "items")
       then VObject (set_field (of_string "items") array (own_fields data))
  else if truthy (get_optional data "permissions")
       then VObject (set_field (of_string "permissions") array (own_fields data))
  else array.

(** Lines 112-145: from the answer to the GET to the payload of the PUT. *)
Definition payload (input : Input) (data : Value) : Thrown + Value :=
  do array <- permissionsArray data;
  do items <- checked array;
  do i <- groupIndex (group input) items;
  inr (payload_of data (VArray (updated i (updates input) items))).

Definition permissions_url (input : Input) : jsstring :=
  of_string "/entities/" ++ entityId input ++ of_string "/permissions".

Section Execute.

(** The server behind [builderClient], and [JSON.stringify(v, null, 2)]. *)
Variable api_get : jsstring → Client.AxiosError + Client.AxiosResponse.
Variable api_put : jsstring → Value → Client.AxiosError + Client.AxiosResponse.
Variable stringify : Value → jsstring.

(** Lines 149-162. *)
Definition report (input : Input) (data : Value) : Thrown + Tools.ToolResult :=
  let updatedPermissions :=
    or (get_optional data "items")
      (or (get_optional data "permissions") (or data (VArray []))) in
  do resultGroup <-
    match updatedPermissions with
    | VArray items => find (names_group (group input)) items
    | _ => inr VNull
    end;
  inr (Tools.text_result
         (of_string "Successfully updated permissions for group '"
            ++ group input ++ of_string "'." ++ [LF; LF]
            ++ of_string "Updated Group Configuration:" ++ [LF]
            ++ stringify (or resultGroup (VObject (updates input))))).

(** [update_entity_permissions.execute], lines 103-163, after the schema:
    the requests it made, and what it returned or threw. *)
Definition execute (input : Input) : list Request * (Thrown + Tools.ToolResult) :=
  let get_url := permissions_url input ++ of_string "?_size=100" in
  match api_get get_url with
  | inl error => ([GET get_url], inl (Rejected error))
  | inr getResponse =>
      match payload input (Client.data getResponse) with
      | inl thrown => ([GET get_url], inl thrown)
      | inr body =>
          let requests := [GET get_url; PUT (permissions_url input) body] in
          match api_put (permissions_url input) body with
          | inl error => (requests, inl (Rejected error))
          | inr putResponse => (requests, report input (Client.data putResponse))
          end
      end
  end.

End Execute.

(** The first element of [items] that names the group [g] is at [i]. *)
Definition first_match (g : jsstring) (items : list Value) (i : nat)
    (old : Value) : Prop :=
  items !! i = Some old ∧ names_group g old = inr true ∧
  ∀ j p, j < i → items !! j = Some p → names_group g p = inr false.

End Permissions.

(** An answer with two groups under [items], a request to let ["admin"]
    edit, and the payload [execute] makes of them. *)
Module PermissionsExamples.
Import Js Value Permissions.

Definition group_of (name editing : string) : Value :=
  VObject [ (of_string "name", VString (of_string name));
            (of_string "canEdit", VString (of_string editing)) ].

Definition answer : Value :=
  VObject [ (of_string "total", VNumber 2);
            (of_string "items",
             VArray [ group_of "guest" "NEVER"; group_of "admin" "NEVER" ]) ].

Definition request : Input :=
  {| entityId := of_string "contacts";
     group := of_string "admin";
     updates := [ (of_string "canEdit", VString (of_string "ALWAYS")) ] |}.

Definition sent : Value :=
  VObject [ (of_string "total", VNumber 2);
            (of_string "items",
             VArray [ group_of "guest" "NEVER"; group_of "admin" "ALWAYS" ]) ].

(** What [get_entity_permissions] shows of [answer] for ["admin"]. *)
Definition shown_to_admin : Value :=
  VObject [ (of_string "total", VNumber 2);
            (of_string "items",
             VArray [ VObject [ (of_string "id", VUndefined);
                                (of_string "name", VString (of_string "admin"));
                                (of_string "label", VUndefined) ] ]) ].

End PermissionsExamples.

(* ===================================================================== *)
(** ** [get_entity_permissions] (tools.ts) *)
(* ===================================================================== *)

Module ShowPermissions.
Import Js Value Permissions.

(** The arguments once [schema.parse] has accepted them; [group] is
    optional. *)
Record Query := {
  entityId : jsstring;
  group : option jsstring;
}.

(** [if (input.group)]: the group to filter by, if there is one and it is
    not the empty string. *)
Definition filtering (input : Query) : option jsstring :=
  match group input with
  | Some (c :: g) => Some (c :: g)
  | _ => None
  end.

(** [Array.prototype.filter] and [Array.prototype.map] with a callback
    that may throw. *)
Fixpoint filter (predicate : Value → Thrown + bool) (items : list Value)
    : Thrown + list Value :=
  match items with
  | [] => inr []
  | p :: items' =>
      do keep <- predicate p;
      do rest <- filter predicate items';
      inr (if (keep : bool) then p :: rest else rest)
  end.

Fixpoint map (f : Value → Thrown + Value) (items : list Value)
    : Thrown + list Value :=
  match items with
  | [] => inr []
  | p :: items' =>
      do x <- f p;
      do rest <- map f items';
      inr (x :: rest)
  end.

(** Lines 231-235 and 239-243. *)
Definition field_entry (f : Value) : Thrown + Value :=
  do name <- read f "name";
  do label <- read f "label";
  do permission <- read f "permission";
  inr (VObject [ (of_string "name", name); (of_string "label", label);
                 (of_string "permission", permission) ]).

Definition action_entry (a : Value) : Thrown + Value :=
  do name <- read a "name";
  do label <- read a "label";
  do permission <- read a "permission";
  inr (VObject [ (of_string "name", name); (of_string "label", label);
                 (of_string "permission", get_optional permission "type") ]).

(** [if (p.key?.type) cleaned.key = p.key.type], lines 224-228; [p] is not
    [null] there. *)
Definition copy_type (key : string) (p : Value)
    (cleaned : list (jsstring * Value)) : list (jsstring * Value) :=
  let type := get_optional (get_optional p key) "type" in
  if truthy type then set_field (of_string key) type cleaned else cleaned.

(** [if (p.key && Array.isArray(p.key)) cleaned.key = p.key.map(entry)],
    lines 230-244. *)
Definition copy_entries (key : string) (entry : Value → Thrown + Value)
    (p : Value) (cleaned : list (jsstring * Value))
    : Thrown + list (jsstring * Value) :=
  match get_optional p key with
  | VArray entries =>
      do mapped <- map entry entries;
      inr (set_field (of_string key) (VArray mapped) cleaned)
  | _ => inr cleaned
  end.

(** The callback of lines 218-247. *)
Definition cleaned_item (p : Value) : Thrown + Value :=
  do id <- read p "id";
  do name <- read p "name";
  do label <- read p "label";
  let cleaned :=
    copy_type "canSeeAuditLogs" p
      (copy_type "canDelete" p
         (copy_type "canEdit" p
            (copy_type "canAccess" p
               (copy_type "canCreate" p
                  [ (of_string "id", id); (of_string "name", name);
                    (of_string "label", label) ])))) in
  do cleaned <- copy_entries "fields" field_entry p cleaned;
  do cleaned <- copy_entries "actions" action_entry p cleaned;
  inr (VObject cleaned).

(** [filterByGroup], lines 250-253: [filter] is a method of arrays only. *)
Definition filterByGroup (g : jsstring) (arr : Value) : Thrown + Value :=
  if truthy arr then
    match arr with
    | VArray items => do kept <- filter (names_group g) items; inr (VArray kept)
    | _ => inl ThrownTypeError
    end
  else inr (VArray []).

(** [if (data.key) resultData.key = filterByGroup(data.key)], lines
    260-263. *)
Definition filter_key (g : jsstring) (key : string) (data : Value)
    (resultData : list (jsstring * Value))
    : Thrown + list (jsstring * Value) :=
  do v <- read data key;
  if truthy v then
    do kept <- filterByGroup g v;
    inr (set_field (of_string key) kept resultData)
  else inr resultData.

(** Lines 206-266: [resultData] for the answer [data]. *)
Definition resultData (input : Query) (data : Value) : Thrown + Value :=
  match (if truthy data then get_optional data "items" else VUndefined) with
  | VArray items =>
      do items <-
        match filtering input with
        | Some g => filter (names_group g) items
        | None => inr items
        end;
      do cleanedItems <- map cleaned_item items;
      inr (VObject (set_field (of_string "items") (VArray cleanedItems)
                      (own_fields data)))
  | _ =>
      if isArray data then
        match filtering input with
        | Some g => filterByGroup g data
        | None => inr data
        end
      else
        match filtering input with
        | Some g =>
            do r <- filter_key g "permissions" data (own_fields data);
            do r <- filter_key g "fields" data r;
            do r <- filter_key g "views" data r;
            do r <- filter_key g "actions" data r;
            inr (VObject r)
        | None => inr (VObject (own_fields data))
        end
  end.

Section Execute.

Variable api_get : jsstring → Client.AxiosError + Client.AxiosResponse.
Variable stringify : Value → jsstring.

(** [get_entity_permissions.execute], lines 198-272, after the schema. *)
Definition execute (input : Query) : Thrown + Tools.ToolResult :=
  match api_get (of_string "/entities/" ++ entityId input
                   ++ of_string "/permissions?_size=100") with
  | inl error => inl (Rejected error)
  | inr response =>
      do result <- resultData input (Client.data response);
      inr (Tools.text_result (stringify result))
  end.

End Execute.

End ShowPermissions.

(* ===================================================================== *)
(** ** Facts about the string operations *)
(* ===================================================================== *)

(** Closed decidable facts are settled by evaluation. *)
Ltac by_computation := apply (bool_decide_unpack _); vm_compute; exact I.

Module JsFacts.
Import Js.

Lemma is_space_not_hash c : is_space c = true → is_hash c = false.
Proof.
  unfold is_hash. destruct (N.eqb_spec c hash) as [->|]; [|done].
  vm_compute. discriminate.
Qed.

Lemma line_terminator_is_space c : is_line_terminator c = true → is_space c = true.
Proof. unfold is_space. intros ->. apply orb_true_r. Qed.

Lemma line_terminator_not_hash c : is_line_terminator c = true → is_hash c = false.
Proof. intros H. by apply is_space_not_hash, line_terminator_is_space. Qed.

Lemma is_hash_eq c : is_hash c = true ↔ c = hash.
Proof. unfold is_hash. apply N.eqb_eq. Qed.

(** *** The greedy run of ['#'] *)

Lemma hash_run_marker k w r :
  is_space w = true → hash_run (replicate k hash ++ w :: r) = k.
Proof.
  intros Hw. induction k as [|k IH]; simpl.
  - by rewrite (is_space_not_hash w).
  - by rewrite IH.
Qed.

Lemma hash_run_take s : take (hash_run s) s = replicate (hash_run s) hash.
Proof.
  induction s as [|c s IH]; [done|]. simpl.
  destruct (is_hash c) eqn:Hc; [|done]. simpl.
  apply is_hash_eq in Hc as ->. by rewrite IH.
Qed.

Lemma hash_run_le s : hash_run s ≤ length s.
Proof.
  induction s as [|c s IH]; simpl; [lia|]. destruct (is_hash c); simpl; lia.
Qed.

(** *** The matcher *)

Lemma marker_split_Some s k w r :
  marker_split s = Some (k, w, r) ↔
  0 < k ∧ is_space w = true ∧ s = replicate k hash ++ w :: r.
Proof.
  unfold marker_split. split.
  - destruct (hash_run s) as [|n] eqn:Hn; [done|].
    destruct (drop (S n) s) as [|w' r'] eqn:Hd; [done|].
    destruct (is_space w') eqn:Hw; [|done].
    intros [= <- <- <-]. split; [lia|]. split; [done|].
    rewrite <- (take_drop (S n) s) at 1. rewrite Hd, <- Hn.
    by rewrite hash_run_take.
  - intros (Hk & Hw & ->). rewrite hash_run_marker by done.
    destruct k as [|n]; [lia|].
    rewrite drop_app_length' by (by rewrite length_replicate).
    by rewrite Hw.
Qed.

Lemma marker_split_None s :
  marker_split s = None →
  ¬ ∃ k w r, 0 < k ∧ is_space w = true ∧ s = replicate k hash ++ w :: r.
Proof.
  intros Hn (k & w & r & H). apply marker_split_Some in H. congruence.
Qed.

Lemma marker_split_length s k w r :
  marker_split s = Some (k, w, r) → length s = k + 1 + length r.
Proof.
  intros (_ & _ & ->)%marker_split_Some.
  rewrite length_app, length_replicate. simpl. lia.
Qed.

(** *** [trim] *)

Lemma trim_start_all_space s :
  Forall (λ c, is_space c = true) s → trim_start s = [].
Proof. induction 1 as [|c s Hc _ IH]; simpl; [done|]. by rewrite Hc. Qed.

Lemma trim_all_space s :
  Forall (λ c, is_space c = true) s → trim s = [].
Proof. intros H. unfold trim. by rewrite trim_start_all_space. Qed.

Lemma trim_start_suffix s : ∃ l, s = l ++ trim_start s ∧ Forall (λ c, is_space c = true) l.
Proof.
  induction s as [|c s (l & Hl & Hsp)]; simpl.
  - by exists [].
  - destruct (is_space c) eqn:Hc.
    + exists (c :: l). split; [simpl; congruence | by constructor].
    + by exists [].
Qed.

Lemma trim_start_app_keep x y :
  trim_start x ≠ [] → trim_start (x ++ y) = trim_start x ++ y.
Proof.
  induction x as [|c x IH]; simpl; [done|].
  destruct (is_space c); [apply IH | done].
Qed.

Lemma trim_start_app_space x y :
  Forall (λ c, is_space c = true) x → trim_start (x ++ y) = trim_start y.
Proof. induction 1 as [|c x Hc _ IH]; simpl; [done|]. by rewrite Hc. Qed.

Lemma trim_end_app_keep x y :
  trim_end y ≠ [] → trim_end (x ++ y) = x ++ trim_end y.
Proof.
  unfold trim_end. intros Hy. rewrite reverse_app, trim_start_app_keep.
  - by rewrite reverse_app, reverse_involutive.
  - intros E. apply Hy. by rewrite E.
Qed.

Lemma trim_start_length s : length (trim_start s) ≤ length s.
Proof.
  induction s as [|c s IH]; simpl; [lia|]. destruct (is_space c); simpl; lia.
Qed.

Lemma trim_end_length s : length (trim_end s) ≤ length s.
Proof.
  unfold trim_end. rewrite length_reverse.
  etrans; [apply trim_start_length|]. by rewrite length_reverse.
Qed.

Lemma trim_length s : length (trim s) ≤ length s.
Proof.
  unfold trim. etrans; [apply trim_end_length | apply trim_start_length].
Qed.

End JsFacts.
(* ===================================================================== *)
(** ** The chunker splits at header markers *)
(* ===================================================================== *)

Module ChunkerFacts.
Import Js JsFacts Chunker.

Lemma last_unit_cons prev c l : last_unit prev (c :: l) = last_unit (Some c) l.
Proof.
  unfold last_unit. rewrite last_cons. by destruct (last l).
Qed.

Lemma last_unit_app_cons prev l c l' :
  last_unit prev (l ++ c :: l') = last_unit (Some c) l'.
Proof.
  induction l as [|d l IH] in prev |- *; simpl.
  - apply last_unit_cons.
  - rewrite last_unit_cons. apply IH.
Qed.

Lemma at_line_start_unit_before str q :
  q ≤ length str → at_line_start str q = begins_line (unit_before str q).
Proof.
  destruct q as [|q]; simpl; [done|]. intros Hq.
  destruct (lookup_lt_is_Some_2 str q) as [c Hc]; [lia|]. by rewrite Hc.
Qed.

Lemma header_at_marker_split prev s :
  header_at prev s ↔
  begins_line prev = true ∧ ∃ k w r, marker_split s = Some (k, w, r).
Proof.
  unfold header_at. split; intros [Hb (k & w & r & H)]; (split; [done|]);
    exists k, w, r; by apply marker_split_Some.
Qed.

Lemma header_exec_Some str q k w r :
  q ≤ length str →
  begins_line (unit_before str q) = true →
  marker_split (drop q str) = Some (k, w, r) →
  header_exec str q = Some (q + k + 1).
Proof.
  intros Hq Hb Hm. unfold header_exec.
  by rewrite at_line_start_unit_before, Hb, Hm.
Qed.

Lemma header_exec_None str q :
  q ≤ length str →
  ¬ header_at (unit_before str q) (drop q str) →
  header_exec str q = None.
Proof.
  intros Hq Hn. unfold header_exec. rewrite at_line_start_unit_before by done.
  destruct (begins_line _) eqn:Hb; [|done].
  destruct (marker_split _) as [[[k w] r]|] eqn:Hm; [|done].
  destruct Hn. apply header_at_marker_split. eauto.
Qed.

Lemma HeaderSplit_nonempty prev s segs : HeaderSplit prev s segs → segs ≠ [].
Proof. by destruct 1. Qed.

Lemma substring_snoc str p q c :
  p ≤ q → str !! q = Some c →
  substring str p (q + 1) = substring str p q ++ [c].
Proof.
  intros Hpq Hc. unfold substring.
  replace (q + 1 - p) with (S (q - p)) by lia.
  apply take_S_r. rewrite lookup_drop. by replace (p + (q - p)) with q by lia.
Qed.

Lemma split_loop_step fuel str p q :
  split_loop (S fuel) str p q =
  if decide (q < length str) then
    match header_exec str q with
    | None => split_loop fuel str p (q + 1)
    | Some e =>
        if decide (e = p) then split_loop fuel str p (q + 1)
        else substring str p q :: split_loop fuel str e e
    end
  else [substring str p (length str)].
Proof. done. Qed.

(** The loop of [split] computes the segments between the markers. *)
Lemma split_loop_spec prev s segs :
  HeaderSplit prev s segs →
  ∀ fuel str p q,
    drop q str = s → unit_before str q = prev →
    q ≤ length str → p ≤ q → length str - q ≤ fuel →
    split_loop fuel str p q = prepend (substring str p q) segs.
Proof.
  induction 1 as [prev|prev k w rest segs Hb Hk Hw Hrest IH
                  |prev c rest seg segs Hno Hrest IH];
    intros fuel str p q Hd Hprev Hq Hpq Hfuel.
  - assert (q = length str) as ->.
    { apply (f_equal length) in Hd. rewrite length_drop in Hd. simpl in Hd. lia. }
    simpl. rewrite app_nil_r.
    destruct fuel; simpl; [done|]. by rewrite decide_False by lia.
  - assert (length str = q + (k + 1 + length rest)) as Hlen.
    { apply (f_equal length) in Hd.
      rewrite length_drop, length_app, length_replicate in Hd. simpl in Hd. lia. }
    destruct fuel as [|fuel]; [lia|]. rewrite split_loop_step.
    rewrite decide_True by lia.
    rewrite (header_exec_Some str q k w rest); [|done|by rewrite Hprev|].
    2:{ rewrite Hd. by apply marker_split_Some. }
    rewrite decide_False by lia.
    rewrite (IH fuel str (q + k + 1) (q + k + 1)); [|..|lia|lia|lia].
    + cbn [prepend]. rewrite app_nil_r. f_equal.
      unfold substring. rewrite Nat.sub_diag. simpl.
      pose proof (HeaderSplit_nonempty _ _ _ Hrest). by destruct segs.
    + replace (q + k + 1) with (q + (k + 1)) by lia.
      rewrite <- drop_drop, Hd, <- drop_drop.
      by rewrite drop_app_length' by (by rewrite length_replicate).
    + replace (q + k + 1) with (S (q + k)) by lia. simpl.
      rewrite <- lookup_drop, Hd.
      rewrite lookup_app_r; rewrite length_replicate; [|lia].
      by rewrite Nat.sub_diag.
  - assert (length str = q + S (length rest)) as Hlen.
    { apply (f_equal length) in Hd. rewrite length_drop in Hd. simpl in Hd. lia. }
    assert (str !! q = Some c) as Hc.
    { rewrite <- (Nat.add_0_r q), <- lookup_drop, Hd. done. }
    destruct fuel as [|fuel]; [lia|]. rewrite split_loop_step.
    rewrite decide_True by lia.
    rewrite header_exec_None; [|lia|by rewrite Hd, Hprev].
    rewrite (IH fuel str p (q + 1)); [|..|lia|lia|lia].
    + simpl. rewrite (substring_snoc _ _ _ c) by done.
      by rewrite <- app_assoc.
    + replace (q + 1) with (S q) by lia.
      apply (drop_S _ _ _) in Hc. rewrite Hd in Hc. by injection Hc as <-.
    + by replace (q + 1) with (S q) by lia.
Qed.

Lemma HeaderSplit_total s : ∀ prev, ∃ segs, HeaderSplit prev s segs.
Proof.
  induction s as [s IH] using (induction_ltof1 _ length). unfold ltof in IH.
  intros prev. destruct s as [|c rest]; [eexists; constructor|].
  destruct (begins_line prev) eqn:Hb.
  - destruct (marker_split (c :: rest)) as [[[k w] r]|] eqn:Hm.
    + pose proof (marker_split_length _ _ _ _ Hm) as Hlen.
      apply marker_split_Some in Hm as (Hk & Hw & Hs).
      destruct (IH r) with (prev := Some w) as [segs Hsegs]; [lia|].
      rewrite Hs. eexists. by constructor.
    + destruct (IH rest) with (prev := Some c) as [segs Hsegs]; [simpl; lia|].
      pose proof (HeaderSplit_nonempty _ _ _ Hsegs).
      destruct segs as [|seg segs]; [done|].
      eexists. constructor; [|done].
      intros (_ & Hm')%header_at_marker_split.
      destruct Hm' as (? & ? & ? & ?). congruence.
  - destruct (IH rest) with (prev := Some c) as [segs Hsegs]; [simpl; lia|].
    pose proof (HeaderSplit_nonempty _ _ _ Hsegs).
    destruct segs as [|seg segs]; [done|].
    eexists. constructor; [|done]. intros [? _]. congruence.
Qed.

(** [split_header] yields the segments between the header markers, and these
    are unique. *)
Lemma split_header_unique text segs :
  HeaderSplit None text segs → split_header text = segs.
Proof.
  intros H. unfold split_header. destruct text as [|c text].
  - inversion H as [|? k ? ? ? ? ? ? ? Heq|]; [done|]. by destruct k.
  - rewrite (split_loop_spec _ _ _ H); [|done..|simpl; lia|lia|lia].
    unfold substring. simpl.
    pose proof (HeaderSplit_nonempty _ _ _ H). by destruct segs.
Qed.

Lemma split_header_spec text : HeaderSplit None text (split_header text).
Proof.
  destruct (HeaderSplit_total text None) as [segs H].
  by rewrite (split_header_unique _ _ H).
Qed.

(** *** Headed sections *)

Lemma marker_eq k w r k' w' r' :
  is_space w = true → is_space w' = true → 0 < k → 0 < k' →
  replicate k hash ++ w :: r = replicate k' hash ++ w' :: r' →
  k = k' ∧ w = w' ∧ r = r'.
Proof.
  intros Hw Hw' Hk Hk' Heq.
  assert (marker_split (replicate k hash ++ w :: r) = Some (k, w, r)) as H1
    by (by apply marker_split_Some).
  assert (marker_split (replicate k' hash ++ w' :: r') = Some (k', w', r')) as H2
    by (by apply marker_split_Some).
  rewrite Heq, H2 in H1. by injection H1 as -> -> ->.
Qed.

Lemma HeaderSplit_inv prev s segs :
  HeaderSplit prev s segs →
  (s = [] ∧ segs = [[]]) ∨
  (∃ k w rest segs',
      s = replicate k hash ++ w :: rest ∧ segs = [] :: segs' ∧
      begins_line prev = true ∧ 0 < k ∧ is_space w = true ∧
      HeaderSplit (Some w) rest segs') ∨
  (∃ c rest seg segs',
      s = c :: rest ∧ segs = (c :: seg) :: segs' ∧
      ¬ header_at prev (c :: rest) ∧ HeaderSplit (Some c) rest (seg :: segs')).
Proof.
  destruct 1; [by left | right; left | right; right]; naive_solver.
Qed.

(** The segment that begins right at [sect]: it runs up to the next header
    line, or to the end. *)
Lemma HeaderSplit_head sect : ∀ prev post segs,
  HeaderSplit prev (sect ++ post) segs →
  (∀ s1 s2, sect = s1 ++ s2 → s2 ≠ [] →
            ¬ header_at (last_unit prev s1) (s2 ++ post)) →
  post = [] ∨ header_at (last_unit prev sect) post →
  ∃ l2, segs = sect :: l2.
Proof.
  induction sect as [|c sect IH]; intros prev post segs H Hno Hpost;
    apply HeaderSplit_inv in H
      as [[Hs ->]|[(k & w & rest & segs' & Hs & -> & Hb & Hk & Hw & Hr)
                  |(d & rest & seg & segs' & Hs & -> & Hn & Hr)]];
    simpl in Hs; eauto.
  - unfold last_unit in Hpost. simpl in Hpost.
    destruct Hpost as [Hp|Hp]; [congruence|]. rewrite Hs in Hp. by destruct Hn.
  - done.
  - destruct (Hno [] (c :: sect)); [done..|].
    split; [done|]. exists k, w, rest. simpl. by rewrite Hs.
  - injection Hs as <- <-.
    destruct (IH (Some c) post (seg :: segs')) as [l2 Hl2]; [done|..].
    + intros s1 s2 -> Hs2. rewrite <- last_unit_cons with (prev := prev).
      by apply (Hno (c :: s1) s2).
    + by rewrite <- last_unit_cons with (prev := prev).
    + injection Hl2 as -> ->. eauto.
Qed.

(** A prefix that ends a line cannot stop inside a marker. *)
Lemma prefix_covers_marker k w rest : ∀ pre x t,
  last pre = Some t → is_hash t = false →
  pre ++ x = replicate k hash ++ w :: rest →
  ∃ pre', pre = replicate k hash ++ w :: pre' ∧ rest = pre' ++ x.
Proof.
  induction k as [|k IH]; intros pre x t Hlast Ht Heq; simpl in *.
  - destruct pre as [|c pre]; [done|]. injection Heq as -> <-. by exists pre.
  - destruct pre as [|c pre]; [done|]. injection Heq as -> Heq.
    destruct pre as [|d pre].
    + simpl in Hlast. injection Hlast as <-. by vm_compute in Ht.
    + rewrite last_cons_cons in Hlast.
      destruct (IH _ _ _ Hlast Ht Heq) as (pre' & -> & ->). by exists pre'.
Qed.

Lemma HeaderSplit_section prev s segs :
  HeaderSplit prev s segs →
  ∀ pre k w sect post,
    s = pre ++ replicate k hash ++ w :: sect ++ post →
    0 < k → is_space w = true →
    begins_line (last_unit prev pre) = true →
    (∀ s1 s2, sect = s1 ++ s2 → s2 ≠ [] →
              ¬ header_at (last_unit (Some w) s1) (s2 ++ post)) →
    post = [] ∨ header_at (last_unit (Some w) sect) post →
    ∃ l1 l2, segs = l1 ++ sect :: l2 ∧ l1 ≠ [].
Proof.
  induction 1 as [prev|prev k0 w0 rest segs Hb0 Hk0 Hw0 Hrest IH
                  |prev c rest seg segs Hno0 Hrest IH];
    intros pre k w sect post Hs Hk Hw Hb Hno Hpost.
  - destruct pre; [destruct k; [lia|done]|done].
  - destruct pre as [|c pre].
    + simpl in Hs. apply marker_eq in Hs as (-> & -> & ->); [|done..].
      destruct (HeaderSplit_head _ _ _ _ Hrest Hno Hpost) as [l2 ->].
      by exists [[]], l2.
    + destruct (last (c :: pre)) as [t|] eqn:Hlast.
      2:{ by apply last_None in Hlast. }
      assert (is_hash t = false) as Ht.
      { apply line_terminator_not_hash. unfold last_unit in Hb.
        by rewrite Hlast in Hb. }
      symmetry in Hs.
      destruct (prefix_covers_marker _ _ _ _ _ _ Hlast Ht Hs) as (pre' & Hpre & ->).
      destruct (IH pre' k w sect post) as (l1 & l2 & -> & Hl1); [done..| |done|done|].
      { by rewrite Hpre, last_unit_app_cons in Hb. }
      by exists ([] :: l1), l2.
  - destruct pre as [|c' pre].
    + destruct Hno0. split; [done|]. exists k, w, (sect ++ post). by rewrite Hs.
    + simpl in Hs. injection Hs as <- ->.
      destruct (IH pre k w sect post) as (l1 & l2 & Heq & Hl1); [done..| |done|done|].
      { by rewrite last_unit_cons in Hb. }
      destruct l1 as [|seg' l1]; [done|]. simpl in Heq. injection Heq as -> ->.
      by exists ((c :: seg') :: l1), l2.
Qed.

(** The segment of a headed section is one of the segments of [split]. *)
Lemma headed_section_segment text w sect post :
  headed_section text w sect post → sect ∈ split_header text.
Proof.
  intros (pre & k & Htext & Hk & Hw & Hb & Hno & Hpost).
  destruct (HeaderSplit_section _ _ _ (split_header_spec text)
              pre k w sect post) as (l1 & l2 & -> & _); [done..|].
  apply elem_of_app. right. apply list_elem_of_here.
Qed.

(** Text in front of a segment that survives trimming does not make the
    trimmed segment shorter. *)
Lemma trim_app_length x y :
  trim y ≠ [] → length (trim y) ≤ length (trim (x ++ y)).
Proof.
  intros Hy. destruct (trim_start_suffix y) as (l & Hl & Hsp).
  assert (trim_end y = l ++ trim y) as Hend.
  { rewrite Hl at 1. by apply trim_end_app_keep. }
  assert (trim_end y ≠ []) as Hne.
  { rewrite Hend. intros [_ ?]%app_eq_nil. done. }
  destruct (trim_start x) as [|c x'] eqn:Hx.
  - destruct (trim_start_suffix x) as (l' & Hl' & Hsp'). rewrite Hx, app_nil_r in Hl'.
    subst l'. unfold trim at 2. rewrite trim_start_app_space by done. done.
  - unfold trim at 2. rewrite trim_start_app_keep by (by rewrite Hx).
    rewrite trim_end_app_keep by done. rewrite length_app, Hend, length_app. lia.
Qed.

End ChunkerFacts.
(* ===================================================================== *)
(** ** Properties of the chunker *)
(* ===================================================================== *)

Module ChunkerSpec.
Import Js JsFacts Chunker ChunkerFacts Examples.

Lemma chunk_filter_rule text :
  chunk text =
  filter (λ c, longer_than_minimum (length c) = true) (trim <$> split_header text).
Proof.
  unfold chunk. apply list_filter_iff. intros c.
  unfold longer_than_minimum, MIN_CHUNK_LENGTH. symmetry. apply Nat.ltb_lt.
Qed.

(** A text none of whose positions begins a header line is one segment. *)
Lemma HeaderSplit_no_header s : ∀ prev,
  (∀ s1 s2, s = s1 ++ s2 → ¬ header_at (last_unit prev s1) s2) →
  HeaderSplit prev s [s].
Proof.
  induction s as [|c rest IH]; intros prev Hno; [constructor|].
  constructor.
  - apply (Hno [] (c :: rest)). done.
  - apply IH. intros s1 s2 -> Hh. apply (Hno (c :: s1) s2); [done|].
    by rewrite last_unit_cons.
Qed.

Lemma all_space_no_header_line text :
  Forall (λ c, is_space c = true) text → no_header_line text.
Proof.
  intros Hsp pre suf -> (_ & k & w & r & Hk & _ & ->).
  destruct k as [|k]; [lia|].
  rewrite Forall_app in Hsp. destruct Hsp as [_ Hsp]. simpl in Hsp.
  apply Forall_cons in Hsp as [Hh _]. by vm_compute in Hh.
Qed.

Lemma chunk_no_header_line text :
  no_header_line text → chunk text = filter (λ c, 50 < length c) [trim text].
Proof.
  intros Hno. unfold chunk.
  by rewrite (split_header_unique text [text]) by (by apply HeaderSplit_no_header).
Qed.

(** C1 (as amended). For every document text, [chunk] returns exactly the
    segments obtained by splitting the text at its header markers, trimming
    each segment and keeping, in document order, those longer than 50 code
    units (a segment of 50 or fewer is dropped); these chunks are unique. A
    document without header lines is one trimmed segment under the same
    rule, and an empty or whitespace-only document yields no chunk. *)
Theorem chunk_splits_at_header_lines (text : jsstring) :
  chunks_by_rule longer_than_minimum text (chunk text) ∧
  (∀ chunks, chunks_by_rule longer_than_minimum text chunks → chunks = chunk text) ∧
  (no_header_line text → chunk text = filter (λ c, 50 < length c) [trim text]) ∧
  (Forall (λ c, is_space c = true) text → chunk text = []).
Proof.
  split; [|split; [|split]].
  - exists (split_header text). split; [apply split_header_spec|].
    apply chunk_filter_rule.
  - intros chunks (segs & Hsegs & ->).
    by rewrite chunk_filter_rule, (split_header_unique _ _ Hsegs).
  - apply chunk_no_header_line.
  - intros Hsp. rewrite chunk_no_header_line by (by apply all_space_no_header_line).
    rewrite trim_all_space by done. done.
Qed.

(** C1, as the specification words it, fails: a segment of exactly 50 code
    units is not "shorter than the minimum length", yet [chunk] drops it. *)
Lemma chunk_drops_segment_of_minimum_length :
  chunks_by_rule not_shorter_than_minimum fifty_letters [fifty_letters] ∧
  chunk fifty_letters = [].
Proof.
  split; [|by vm_compute].
  exists (split_header fifty_letters). split; [apply split_header_spec|].
  by vm_compute.
Qed.

(** The trimmed content of a headed section is a chunk when it is longer
    than 50 code units. *)
Lemma headed_section_chunk text w sect post :
  headed_section text w sect post →
  50 < length (trim sect) →
  trim sect ∈ chunk text.
Proof.
  intros Hsec Hlen. unfold chunk. apply list_elem_of_filter. split; [done|].
  apply list_elem_of_fmap_2. by apply (headed_section_segment _ w _ post).
Qed.

(** A text without ['#'] begins no header line, whatever follows it. *)
Lemma no_hash_no_header prev sect :
  Forall (λ c, is_hash c = false) sect →
  ∀ s1 s2, sect = s1 ++ s2 → s2 ≠ [] →
           ¬ header_at (last_unit prev s1) (s2 ++ []).
Proof.
  intros Hno s1 s2 -> Hs2 (_ & k & w & r & Hk & _ & Heq).
  rewrite app_nil_r in Heq. subst s2.
  destruct k as [|k]; [lia|].
  rewrite Forall_app in Hno. destruct Hno as [_ Hno]. simpl in Hno.
  apply Forall_cons in Hno as [Hh _]. by vm_compute in Hh.
Qed.


Lemma titled_document_section :
  section_with_body titled_document (of_string "Title") LF sixty_letters.
Proof.
  exists 32%N, []. split; [|split; [done|split; [|done]]].
  - exists [], 1. split; [by vm_compute|]. split; [lia|].
    split; [done|]. split; [done|]. split; [|by left].
    apply no_hash_no_header. by_computation.
  - by_computation.
Qed.



End ChunkerSpec.
(* ===================================================================== *)
(** ** Running the methods *)
(* ===================================================================== *)

Module RagFacts.
Import Js Chunker Rag.

(** Unfolding the monad and the calls on the collaborators. *)
Ltac unfold_calls :=
  cbv [negb bind ret throw try_catch this world assign update_world external
       on_db connect pipeline tableNames openTable vectorSearch dropTable
       createTable glob readFileSync call_embedder];
  cbn [fst snd docs tables embedding nearest fault store_log visible
       db embedder ready log_call write_tables set_db set_embedder set_ready].

Ltac simpl_state :=
  cbn [fst snd docs tables embedding nearest fault store_log visible
       db embedder ready log_call write_tables set_db set_embedder set_ready].

Ltac simpl_state_all :=
  cbn [fst snd docs tables embedding nearest fault store_log visible
       db embedder ready log_call write_tables set_db set_embedder set_ready]
    in *.

Lemma outcome_healthy {A} w (r : JsError + A) v :
  outcome w r v → healthy w → r = inr v.
Proof. by intros [?|[_ ?]] ?. Qed.

Lemma not_healthy w op e : fault w op = Some e → ¬ healthy w.
Proof. intros H Hh. by rewrite Hh in H. Qed.

Lemma outcome_fault {A} w op e (v : A) :
  fault w op = Some e → outcome w (inl (External e)) v.
Proof. intros H. right. split; [by eexists|]. by eapply not_healthy. Qed.

(** *** The phases of [ingest] *)

Lemma bind_assoc {A B C} (m : M A) (k : A → M B) (h : B → M C) σ :
  bind (bind m k) h σ = bind m (λ a, bind (k a) h) σ.
Proof. unfold bind. by destruct (m σ) as [σ' [e|a]]. Qed.

Lemma bind_ext {A B} (m : M A) (k k' : A → M B) σ :
  (∀ a σ', k a σ' = k' a σ') → bind m k σ = bind m k' σ.
Proof. intros H. unfold bind. destruct (m σ) as [σ' [e|a]]; [done|apply H]. Qed.

Lemma bind_inr {A B} (m : M A) (k : A → M B) σ σ' a :
  m σ = (σ', inr a) → bind m k σ = k a σ'.
Proof. intros H. unfold bind. by rewrite H. Qed.

Lemma bind_inl {A B} (m : M A) (k : A → M B) σ σ' e :
  m σ = (σ', inl e) → bind m k σ = (σ', inl e).
Proof. intros H. unfold bind. by rewrite H. Qed.

Lemma ingest_phases σ :
  ingest σ = (prepare;; let* data := collect in store data) σ.
Proof.
  symmetry. unfold ingest, prepare, collect.
  etrans; [apply bind_assoc|]. cbv beta.
  apply bind_ext; intros _ σ1. apply bind_ext; intros _ σ2.
  apply (bind_assoc glob).
Qed.

(** Preparing touches neither the flag nor the tables; it logs at most the
    connection, and it leaves [db] and [embedder] defined when it succeeds. *)
Lemma prepare_spec s w :
  ∃ s1 w1 r,
    prepare (s, w) = ((s1, w1), r) ∧
    (w1 = w ∨ w1 = log_call CallConnect w) ∧
    ready s1 = ready s ∧
    match r with
    | inr _ => is_Some (db s1) ∧ is_Some (embedder s1)
    | inl e => s1 = s ∨ s1 = set_db LanceDb s
    end ∧
    outcome w r tt.
Proof.
  unfold prepare. destruct s as [[c|] [p|] rd]; unfold_calls;
    repeat case_match; simplify_eq;
    do 3 eexists; (split; [reflexivity|]); cbn;
    repeat split; eauto using outcome_fault; by left.
Qed.

(** *** Collecting the rows *)

Lemma call_embedder_spec s w c :
  is_Some (embedder s) →
  ∃ r, call_embedder c (s, w) = ((s, w), r) ∧ outcome w r (embedding w c).
Proof.
  intros [p Hp]. unfold_calls. rewrite Hp. cbn [fst snd].
  destruct (fault w (OpEmbed c)) as [e|] eqn:Hf; eexists; (split; [done|]).
  - by eapply outcome_fault.
  - by left.
Qed.

Lemma push_chunks_spec s w file chunks : ∀ data,
  is_Some (embedder s) →
  ∃ r, foldM (push_chunk file) chunks data (s, w) = ((s, w), r) ∧
       outcome w r
         (data ++ ((λ c, {| vector := embedding w c; text := c; source := file |})
                     <$> chunks)).
Proof.
  induction chunks as [|c chunks IH]; intros data He; simpl.
  - eexists. split; [done|]. left. by rewrite app_nil_r.
  - unfold push_chunk at 1.
    destruct (call_embedder_spec s w c He) as (r & Hr & [->|[[x ->] Hw]]).
    + rewrite (bind_inr _ _ _ _ _ (bind_inr _ _ _ _ _ Hr)).
      destruct (IH (data ++ [{| vector := embedding w c; text := c;
                                source := file |}]) He) as (r' & -> & Hr').
      eexists. split; [done|]. by rewrite <- app_assoc in Hr'.
    + rewrite (bind_inl _ _ _ _ _ (bind_inl _ _ _ _ _ Hr)).
      eexists. split; [done|]. right. eauto.
Qed.

Lemma ingest_file_spec s w data file content :
  is_Some (embedder s) →
  docs w !! file = Some content →
  ∃ r, ingest_file data file (s, w) = ((s, w), r) ∧
       outcome w r (data ++ rows_of w file content).
Proof.
  intros He Hdoc. unfold ingest_file.
  assert (∃ r0, readFileSync file (s, w) = ((s, w), r0) ∧ outcome w r0 content)
    as (r0 & Hr0 & [->|[[x ->] Hw]]).
  { unfold_calls.
    destruct (fault w (OpReadFile file)) as [e|] eqn:Hf; eexists;
      cbn [fst snd]; rewrite ?Hdoc; (split; [done|]);
      [by eapply outcome_fault | by left]. }
  - rewrite (bind_inr _ _ _ _ _ Hr0). by apply push_chunks_spec.
  - rewrite (bind_inl _ _ _ _ _ Hr0). eexists. split; [done|]. right. eauto.
Qed.

Lemma ingest_files_spec s w (fcs : list (string * jsstring)) : ∀ data,
  is_Some (embedder s) →
  (∀ fc, fc ∈ fcs → docs w !! fc.1 = Some fc.2) →
  ∃ r, foldM ingest_file fcs.*1 data (s, w) = ((s, w), r) ∧
       outcome w r (data ++ flat_map (λ fc, rows_of w fc.1 fc.2) fcs).
Proof.
  induction fcs as [|[file content] fcs IH]; intros data He Hdocs; simpl.
  - eexists. split; [done|]. left. by rewrite app_nil_r.
  - destruct (ingest_file_spec s w data file content He)
      as (r & Hr & [->|[[x ->] Hw]]).
    { apply (Hdocs (file, content)). left. }
    + rewrite (bind_inr _ _ _ _ _ Hr).
      destruct (IH (data ++ rows_of w file content) He) as (r' & Hr' & Ho').
      { intros fc Hfc. apply Hdocs. by right. }
      exists r'. split; [exact Hr'|]. by rewrite <- app_assoc in Ho'.
    + rewrite (bind_inl _ _ _ _ _ Hr). eexists. split; [done|]. right. eauto.
Qed.

(** Collecting changes nothing and yields the rows of the corpus. *)
Lemma collect_spec s w :
  is_Some (embedder s) →
  ∃ r, collect (s, w) = ((s, w), r) ∧ outcome w r (corpus_rows w).
Proof.
  intros He. unfold collect.
  destruct (fault w OpGlob) as [e|] eqn:Hf.
  - rewrite (bind_inl _ _ _ (s, w) (External e)).
    + eexists. split; [done|]. by eapply outcome_fault.
    + unfold_calls. by rewrite Hf.
  - rewrite (bind_inr _ _ _ (s, w) (map_to_list (docs w)).*1).
    + apply (ingest_files_spec s w (map_to_list (docs w)) [] He).
      intros [file content] Hfc. by apply elem_of_map_to_list.
    + unfold_calls. by rewrite Hf.
Qed.

(** *** Replacing the table *)

Lemma store_empty s w : store [] (s, w) = ((s, w), inl (Error no_content_message)).
Proof. done. Qed.

Lemma store_run s w data :
  is_Some (db s) → data ≠ [] → store data (s, w) = replaced data s w.
Proof.
  intros [c Hc] Hdata. unfold store, replaced, after_create, after_drop.
  rewrite decide_False by (by destruct data).
  destruct s as [[c'|] e rd]; [|done]. unfold_calls.
  destruct (fault w (OpDropTable "documentation")) eqn:Hd; simpl_state;
    [|destruct (tables w !! "documentation") eqn:Ht; simpl_state];
    rewrite ?Hd, ?Ht;
    by destruct (fault w (OpCreateTable "documentation")).
Qed.

Lemma after_drop_env w :
  docs (after_drop w) = docs w ∧ embedding (after_drop w) = embedding w ∧
  nearest (after_drop w) = nearest w ∧ fault (after_drop w) = fault w.
Proof. unfold after_drop. by repeat case_match. Qed.

Lemma after_drop_tables w :
  tables (after_drop w) = tables w ∨
  tables (after_drop w) = delete "documentation" (tables w).
Proof. unfold after_drop. repeat case_match; auto. Qed.

Lemma after_drop_visible w :
  visible (after_drop w) = visible w ∨
  visible (after_drop w) = visible w ++ [delete "documentation" (tables w)] ∧
  tables (after_drop w) = delete "documentation" (tables w).
Proof. unfold after_drop. repeat case_match; auto. Qed.

Lemma after_drop_log w :
  store_log (after_drop w) = store_log w ++ [CallDropTable "documentation"].
Proof. unfold after_drop. by repeat case_match. Qed.

Lemma after_drop_healthy w :
  healthy w →
  tables (after_drop w) = delete "documentation" (tables w).
Proof.
  intros Hw. unfold after_drop. rewrite Hw.
  destruct (tables w !! "documentation") eqn:Ht; [done|].
  cbn. by rewrite delete_id.
Qed.

(** *** The cases of [ingest] *)

Lemma ingest_cases s w :
  ∃ s1 w1,
    (w1 = w ∨ w1 = log_call CallConnect w) ∧
    ready s1 = ready s ∧
    ((∃ x, ingest (s, w) = ((s1, w1), inl (External x)) ∧ ¬ healthy w) ∨
     (corpus_rows w = [] ∧
      ingest (s, w) = ((s1, w1), inl (Error no_content_message))) ∨
     (corpus_rows w ≠ [] ∧
      ingest (s, w) = replaced (corpus_rows w) s1 w1)).
Proof.
  destruct (prepare_spec s w) as (s1 & w1 & r & Hprep & Hw1 & Hready & Hr & Ho).
  exists s1, w1. split; [done|]. split; [done|].
  rewrite ingest_phases.
  destruct Ho as [->|[[x ->] Hw]].
  2:{ left. exists x. by rewrite (bind_inl _ _ _ _ _ Hprep). }
  rewrite (bind_inr _ _ _ _ _ Hprep). destruct Hr as [Hdb Hemb].
  destruct (collect_spec s1 w1 Hemb) as (r & Hcol & Ho).
  assert (corpus_rows w1 = corpus_rows w) as Hrows by (by destruct Hw1 as [->| ->]).
  assert (healthy w1 ↔ healthy w) as Hh by (by destruct Hw1 as [->| ->]).
  rewrite Hrows in Ho. destruct Ho as [->|[[x ->] Hw]].
  2:{ left. exists x. rewrite (bind_inl _ _ _ _ _ Hcol). by rewrite <- Hh. }
  rewrite (bind_inr _ _ _ _ _ Hcol). right.
  destruct (corpus_rows w) as [|row rows] eqn:Hdata.
  - left. by rewrite store_empty.
  - right. split; [done|]. by apply store_run.
Qed.

(** *** [search] and [initialize] *)

Lemma search_not_ready s w q limit :
  ready s = false →
  search q limit (s, w) = ((s, w), inl (Error not_ready_message)).
Proof. intros Hr. unfold search. unfold_calls. by rewrite Hr. Qed.

(** [search] assigns no field and writes no table; it fails with the
    not-ready error exactly when the flag is off, and with no other error of
    its own; what it returns is the store's answer for the limit as given. *)
Lemma search_spec s w q limit :
  ∃ w' r,
    search q limit (s, w) = ((s, w'), r) ∧
    tables w' = tables w ∧ visible w' = visible w ∧
    docs w' = docs w ∧ fault w' = fault w ∧
    match r with
    | inl e =>
        (e = Error not_ready_message ∧ ready s = false) ∨
        (ready s = true ∧ (e = TypeError ∨ ∃ x, e = External x))
    | inr rs =>
        ready s = true ∧
        ∃ rows, tables w !! "documentation" = Some rows ∧
                rs = shape <$> nearest w rows (embedding w q) limit
    end.
Proof.
  unfold search. destruct s as [d e [|]]; unfold_calls.
  2:{ do 2 eexists. split; [done|]. repeat split; by left. }
  repeat (case_match; simpl_state_all; simplify_eq);
    do 2 eexists; (split; [reflexivity|]); simpl_state;
    repeat split; eauto 8.
Qed.

Lemma search_run s w q limit rows :
  ready s = true → is_Some (db s) → is_Some (embedder s) →
  fault w (OpEmbed q) = None →
  fault w (OpOpenTable "documentation") = None →
  fault w (OpVectorSearch "documentation" limit) = None →
  tables w !! "documentation" = Some rows →
  search q limit (s, w) =
  ((s, log_call (CallVectorSearch "documentation" (embedding w q) limit)
         (log_call (CallOpenTable "documentation") w)),
   inr (shape <$> nearest w rows (embedding w q) limit)).
Proof.
  intros Hr [c Hc] [p Hp] He Ho Hv Ht.
  destruct s as [d e rd]. cbn in Hr, Hc, Hp. subst.
  unfold search. unfold_calls.
  rewrite He. simpl_state. rewrite Ho. simpl_state. rewrite Ht. simpl_state.
  rewrite Hv. simpl_state. by rewrite Ht.
Qed.

Lemma documentation_listed (t : Tables) :
  bool_decide ("documentation" ∈ elements (dom t)) = true ↔
  is_Some (t !! "documentation").
Proof. by rewrite bool_decide_eq_true, elem_of_elements, elem_of_dom. Qed.

(** [initialize] writes no table, and turns the flag on only when it finds
    the table in the store. *)
Lemma initialize_spec s w :
  ∃ s' w' r,
    initialize (s, w) = ((s', w'), r) ∧
    tables w' = tables w ∧ visible w' = visible w ∧
    docs w' = docs w ∧ fault w' = fault w ∧
    (ready s' = ready s ∨
     ready s' = true ∧ is_Some (tables w !! "documentation")).
Proof.
  unfold initialize. destruct s as [d e rd]. unfold_calls.
  destruct (bool_decide ("documentation" ∈ elements (dom (tables w)))) eqn:Hb.
  - apply documentation_listed in Hb.
    repeat (case_match; simpl_state_all; simplify_eq);
      do 3 eexists; (split; [reflexivity|]); simpl_state;
      repeat split; eauto.
  - repeat (case_match; simpl_state_all; simplify_eq);
      simpl_state_all; try congruence;
      do 3 eexists; (split; [reflexivity|]); simpl_state;
      repeat split; eauto.
Qed.

(** *** Consequences for [ingest] *)

Lemma corpus_rows_nil w : no_eligible_chunk w → corpus_rows w = [].
Proof.
  intros Hno. unfold corpus_rows.
  assert (Forall (λ fc, rows_of w fc.1 fc.2 = []) (map_to_list (docs w))) as H.
  { apply Forall_forall. intros [file content] Hfc%elem_of_map_to_list.
    unfold rows_of. simpl. by rewrite (Hno file content Hfc). }
  induction H as [|fc fcs Hfc _ IH]; simpl; [done|]. by rewrite Hfc, IH.
Qed.

Lemma corpus_rows_env w w' :
  docs w' = docs w → embedding w' = embedding w → corpus_rows w' = corpus_rows w.
Proof. intros Hd He. unfold corpus_rows, rows_of. by rewrite Hd, He. Qed.

(** Without rows, [ingest] stops before the store is written. *)
Lemma ingest_without_rows s w :
  corpus_rows w = [] →
  ∃ s1 w1 e,
    ingest (s, w) = ((s1, w1), inl e) ∧
    (w1 = w ∨ w1 = log_call CallConnect w) ∧
    ready s1 = ready s ∧
    (healthy w → e = Error no_content_message).
Proof.
  intros Hrows.
  destruct (ingest_cases s w) as (s1 & w1 & Hw1 & Hready & Hcases).
  exists s1, w1.
  destruct Hcases as [(x & -> & Hw)|[[_ ->]|[Hne _]]]; [| |done];
    eexists; (split; [done|]); repeat split; try done.
Qed.

(** What [ingest] leaves of the environment. *)
Lemma ingest_env s w :
  docs (ingest (s, w)).1.2 = docs w ∧
  embedding (ingest (s, w)).1.2 = embedding w ∧
  nearest (ingest (s, w)).1.2 = nearest w ∧
  fault (ingest (s, w)).1.2 = fault w.
Proof.
  destruct (ingest_cases s w) as (s1 & w1 & Hw1 & Hready & Hcases).
  destruct Hcases as [(x & -> & Hw)|[[_ ->]|[Hne ->]]];
    [by destruct Hw1 as [->| ->]..|].
  unfold replaced, after_create.
  destruct (after_drop_env w1) as (Hd & He & Hn & Hf).
  destruct (fault w1 _); simpl_state; rewrite Hd, He, Hn, Hf;
    by destruct Hw1 as [->| ->].
Qed.

(** [ingest] never turns the flag off. *)
Lemma ingest_keeps_ready s w :
  ready s = true → ready (ingest (s, w)).1.1 = true.
Proof.
  intros Hr.
  destruct (ingest_cases s w) as (s1 & w1 & Hw1 & Hready & Hcases).
  destruct Hcases as [(x & -> & Hw)|[[_ ->]|[Hne ->]]];
    [simpl; congruence..|].
  unfold replaced. destruct (fault w1 _); simpl; congruence.
Qed.

(** A successful [ingest] has written the rows of the corpus and turned the
    flag on. *)
Lemma ingest_success s w σ' n :
  ingest (s, w) = (σ', inr n) →
  ready σ'.1 = true ∧ n = length (corpus_rows w) ∧
  tables σ'.2 !! "documentation" = Some (corpus_rows w).
Proof.
  destruct (ingest_cases s w) as (s1 & w1 & Hw1 & Hready & Hcases).
  destruct Hcases as [(x & -> & Hw)|[[_ ->]|[Hne ->]]]; [done..|].
  unfold replaced, after_create. destruct (fault w1 _); [done|].
  intros [= <- <-]. simpl_state. by rewrite lookup_insert_eq.
Qed.

(** A failed [ingest] leaves the flag as it was, and creates no table. *)
Lemma ingest_failure s w σ' e :
  ingest (s, w) = (σ', inl e) →
  ready σ'.1 = ready s ∧
  (tables w !! "documentation" = None → tables σ'.2 !! "documentation" = None).
Proof.
  destruct (ingest_cases s w) as (s1 & w1 & Hw1 & Hready & Hcases).
  assert (tables w1 = tables w) as Ht by (by destruct Hw1 as [->| ->]).
  destruct Hcases as [(x & -> & Hw)|[[_ ->]|[Hne ->]]].
  - intros [= <- <-]. simpl. by rewrite Ht.
  - intros [= <- <-]. simpl. by rewrite Ht.
  - unfold replaced. destruct (fault w1 _); [|done].
    intros [= <- <-]. simpl_state. split; [done|].
    destruct (after_drop_tables w1) as [-> | ->]; rewrite Ht; [done|].
    intros _. apply lookup_delete_eq.
Qed.

(** On a healthy world with rows to write, [ingest] succeeds and the store
    holds exactly the rows of the corpus under ["documentation"]. *)
Lemma ingest_healthy s w :
  healthy w → corpus_rows w ≠ [] →
  ∃ s' w',
    ingest (s, w) = ((s', w'), inr (length (corpus_rows w))) ∧
    tables w' = <["documentation" := corpus_rows w]> (tables w) ∧
    ready s' = true.
Proof.
  intros Hw Hne.
  destruct (ingest_cases s w) as (s1 & w1 & Hw1 & Hready & Hcases).
  assert (healthy w1) as Hw1h by (by destruct Hw1 as [->| ->]).
  assert (tables w1 = tables w) as Ht by (by destruct Hw1 as [->| ->]).
  destruct Hcases as [(x & _ & Hx)|[[Hnil _]|[_ ->]]]; [done..|].
  unfold replaced, after_create. rewrite Hw1h.
  do 2 eexists. split; [done|]. simpl_state.
  by rewrite (after_drop_healthy _ Hw1h), Ht, insert_delete_eq.
Qed.

End RagFacts.
(* ===================================================================== *)
(** ** Properties of ingestion, search and readiness *)
(* ===================================================================== *)

Module RagSpec.
Import Js Chunker Rag RagFacts Examples.

(** *** Processes *)

Lemma run_cons c calls σ :
  run (c :: calls) σ =
  ((run calls (perform c σ).1).1, (perform c σ).2 :: (run calls (perform c σ).1).2).
Proof.
  simpl. destruct (perform c σ) as [σ' r]. simpl.
  by destruct (run calls σ') as [σ'' rs].
Qed.

Lemma perform_ingest σ :
  perform Ingest σ =
  ((ingest σ).1, match (ingest σ).2 with inl e => inl e | inr n => inr (Count n) end).
Proof. simpl. unfold bind. by destruct (ingest σ) as [σ' [e|n]]. Qed.

Lemma perform_search q limit σ :
  perform (Search q limit) σ =
  ((search q limit σ).1,
   match (search q limit σ).2 with inl e => inl e | inr rs => inr (Results rs) end).
Proof. simpl. unfold bind. by destruct (search q limit σ) as [σ' [e|n]]. Qed.

Lemma perform_initialize σ : (perform Initialize σ).1 = (initialize σ).1.
Proof. simpl. unfold bind. by destruct (initialize σ) as [σ' [e|n]]. Qed.

Lemma perform_isReady σ : perform IsReady σ = (σ, inr (Ready (ready σ.1))).
Proof. done. Qed.

(** No call turns the flag off. *)
Lemma perform_keeps_ready c s w :
  ready s = true → ready (perform c (s, w)).1.1 = true.
Proof.
  intros Hr. destruct c as [| |q limit|].
  - rewrite perform_initialize.
    destruct (initialize_spec s w) as (s' & w' & r & -> & _ & _ & _ & _ & H).
    simpl. destruct H as [->|[? _]]; done.
  - done.
  - rewrite perform_search.
    by destruct (search_spec s w q limit) as (w' & r & -> & _).
  - rewrite perform_ingest. by apply ingest_keeps_ready.
Qed.

(** A call other than a successful [ingest] leaves the flag off when the
    store holds no ["documentation"] table. *)
Lemma perform_keeps_unready c s w :
  ready s = false → tables w !! "documentation" = None →
  (∃ n, (perform c (s, w)).2 = inr (Count n)) ∨
  (ready (perform c (s, w)).1.1 = false ∧
   tables (perform c (s, w)).1.2 !! "documentation" = None).
Proof.
  intros Hr Ht. destruct c as [| |q limit|].
  - right. rewrite perform_initialize.
    destruct (initialize_spec s w) as (s' & w' & r & -> & Ht' & _ & _ & _ & H).
    simpl. rewrite Ht'. split; [|done].
    destruct H as [->|[_ [? ?]]]; congruence.
  - right. done.
  - right. rewrite perform_search.
    destruct (search_spec s w q limit) as (w' & r & -> & Ht' & _).
    simpl. by rewrite Ht'.
  - rewrite perform_ingest. destruct (ingest (s, w)) as [σ' [e|n]] eqn:Hi.
    + right. destruct (ingest_failure _ _ _ _ Hi) as [Hr' Ht']. simpl.
      split; [congruence|auto].
    + left. by exists n.
Qed.

Lemma run_keeps_unready calls : ∀ s w,
  ready s = false → tables w !! "documentation" = None →
  (∀ n, inr (Count n) ∉ (run calls (s, w)).2) →
  ready (run calls (s, w)).1.1 = false.
Proof.
  induction calls as [|c calls IH]; intros s w Hr Ht Hno; [done|].
  rewrite run_cons in Hno |- *. simpl in Hno |- *.
  destruct (perform_keeps_unready c s w Hr Ht) as [[n Hn]|[Hr' Ht']].
  - destruct (Hno n). rewrite Hn. left.
  - destruct (perform c (s, w)) as [[s' w'] r]. apply IH; [done..|].
    intros n Hn. apply (Hno n). by right.
Qed.

Lemma run_keeps_ready calls : ∀ σ,
  ready σ.1 = true → ready (run calls σ).1.1 = true.
Proof.
  induction calls as [|c calls IH]; intros [s w] Hr; [done|].
  rewrite run_cons. simpl. apply IH. by apply perform_keeps_ready.
Qed.

(** *** The empty corpus *)

Lemma scenario_docs_no_chunk (d : gmap string jsstring) file content :
  d = {[ "guide.md" := guide_md; "notes.md" := notes_md ]} →
  d !! file = Some content → chunk content = [].
Proof.
  intros -> [[_ <-]|[_ [_ <-]%lookup_singleton_Some]]%lookup_insert_Some;
    by vm_compute.
Qed.

(** C2. For every corpus that yields no eligible chunk, [ingest] fails; on a
    world where no external call fails the error is the "no content" one;
    and the run leaves the store as it was: the tables are unchanged, no
    state of the store is made visible, and the only call it may have made
    on the store is the connection, so neither [dropTable] nor [createTable]
    was performed. The readiness flag is left as it was. *)
Theorem ingest_empty_corpus_fails (s : RAGSystem) (w : World) :
  no_eligible_chunk w →
  (∃ e, (ingest (s, w)).2 = inl e) ∧
  (healthy w → (ingest (s, w)).2 = inl (Error no_content_message)) ∧
  tables (ingest (s, w)).1.2 = tables w ∧
  visible (ingest (s, w)).1.2 = visible w ∧
  (∃ l, store_log (ingest (s, w)).1.2 = store_log w ++ l ∧
        ∀ c, c ∈ l → c = CallConnect) ∧
  ready (ingest (s, w)).1.1 = ready s.
Proof.
  intros Hno.
  destruct (ingest_without_rows s w (corpus_rows_nil w Hno))
    as (s1 & w1 & e & -> & Hw1 & Hready & He).
  simpl. split; [by exists e|]. split; [by intros ->%He|].
  destruct Hw1 as [->| ->]; simpl; (split; [done|]); (split; [done|]);
    (split; [|done]).
  - exists []. rewrite app_nil_r. split; [done|]. by intros c ?%elem_of_nil.
  - exists [CallConnect]. split; [done|]. by intros c ->%list_elem_of_singleton.
Qed.

(** The two short documents of the scenario over an existing index: the
    run fails with the "no content" error and the index stays. *)
Lemma ingest_empty_corpus_fails_witness :
  no_eligible_chunk short_corpus_world ∧
  healthy short_corpus_world ∧
  (ingest (ready_system, short_corpus_world)).2 = inl (Error no_content_message) ∧
  tables (ingest (ready_system, short_corpus_world)).1.2 = old_index ∧
  visible (ingest (ready_system, short_corpus_world)).1.2 = [] ∧
  ready (ingest (ready_system, short_corpus_world)).1.1 = true.
Proof.
  assert (no_eligible_chunk short_corpus_world) as H.
  { intros file content. by apply scenario_docs_no_chunk. }
  assert (healthy short_corpus_world) as Hh by (by intros op).
  destruct (ingest_empty_corpus_fails ready_system short_corpus_world H)
    as (_ & He & Ht & Hv & _ & Hr).
  split; [exact H|]. split; [exact Hh|]. split; [exact (He Hh)|].
  split; [exact Ht|]. split; [exact Hv|]. exact Hr.
Defined.

(** *** The scenario of the specification *)

(** C8 (as amended). In the corpus of [guide.md] and [notes.md] the trimmed
    segments are 0 and 44, and 0 and 7 code units long, none longer than 50:
    the corpus yields no row, [ingest] fails (with the "no content" error
    when no external call fails) and writes nothing. *)
Theorem scenario_corpus_yields_no_chunk (s : RAGSystem) (w : World) :
  docs w = {[ "guide.md" := guide_md; "notes.md" := notes_md ]} →
  length <$> (trim <$> split_header guide_md) = [0; 44] ∧
  length <$> (trim <$> split_header notes_md) = [0; 7] ∧
  corpus_rows w = [] ∧
  (∃ e, (ingest (s, w)).2 = inl e) ∧
  (healthy w → (ingest (s, w)).2 = inl (Error no_content_message)) ∧
  tables (ingest (s, w)).1.2 = tables w.
Proof.
  intros Hdocs. split; [by vm_compute|]. split; [by vm_compute|].
  assert (corpus_rows w = []) as Hrows.
  { apply corpus_rows_nil. intros file content.
    by apply scenario_docs_no_chunk. }
  split; [done|].
  destruct (ingest_without_rows s w Hrows) as (s1 & w1 & e & -> & Hw1 & _ & He).
  simpl. split; [by exists e|]. split; [by intros ->%He|].
  by destruct Hw1 as [->| ->].
Qed.

Lemma scenario_corpus_yields_no_chunk_witness :
  docs scenario_world = {[ "guide.md" := guide_md; "notes.md" := notes_md ]} ∧
  healthy scenario_world ∧
  corpus_rows scenario_world = [] ∧
  (ingest (start scenario_world)).2 = inl (Error no_content_message) ∧
  tables (ingest (start scenario_world)).1.2 = tables scenario_world.
Proof.
  assert (healthy scenario_world) as Hh by (by intros op).
  destruct (scenario_corpus_yields_no_chunk new_RAGSystem scenario_world eq_refl)
    as (_ & _ & Hrows & _ & He & Ht).
  split; [reflexivity|]. split; [exact Hh|]. split; [exact Hrows|].
  split; [exact (He Hh)|]. exact Ht.
Defined.

(** C8, as the specification words it, fails: on that corpus [ingest] does
    not succeed with one chunk; it throws the "no content" error and the
    store stays empty. *)
Lemma scenario_ingest_writes_no_chunk :
  chunk guide_md = [] ∧ chunk notes_md = [] ∧
  (ingest (start scenario_world)).2 = inl (Error no_content_message) ∧
  tables (ingest (start scenario_world)).1.2 = ∅.
Proof. repeat split; by vm_compute. Qed.

(** *** Readiness *)

(** C3 (as amended). Whenever the readiness flag is off, [search] fails
    with the not-ready error, without touching the object or the store.
    After a successful [ingest], [isReady] returns [true] and no [search]
    of the process fails with the not-ready error any more, whatever is
    called in between and whatever the world then is. The flag is off in
    every process that started on a store without a ["documentation"] table
    and in which no [ingest] has succeeded; it is not off in every process
    that has built no index, because [initialize] turns it on when it finds
    the table of an earlier process. *)
Theorem search_needs_the_ready_flag (s : RAGSystem) (w : World)
    (query : jsstring) (limit : Z) :
  (ready s = false →
   search query limit (s, w) = ((s, w), inl (Error not_ready_message))) ∧
  (∀ n σ', ingest (s, w) = (σ', inr n) →
     isReady σ' = (σ', inr true) ∧
     ∀ calls w', (search query limit (run calls (σ'.1, w')).1).2
                 ≠ inl (Error not_ready_message)) ∧
  (∀ calls,
     tables w !! "documentation" = None →
     (∀ n, inr (Count n) ∉ (run calls (start w)).2) →
     search query limit (run calls (start w)).1 =
     ((run calls (start w)).1, inl (Error not_ready_message))).
Proof.
  split; [apply search_not_ready|]. split.
  - intros n σ' Hi. destruct (ingest_success _ _ _ _ Hi) as (Hr & _ & _).
    split; [unfold isReady; unfold_calls; by rewrite Hr|].
    intros calls w'.
    pose proof (run_keeps_ready calls (σ'.1, w') Hr) as Hr'.
    destruct (run calls (σ'.1, w')).1 as [s'' w''].
    destruct (search_spec s'' w'' query limit) as (w3 & r & -> & _ & _ & _ & _ & H).
    simpl. destruct r as [e|rs]; [|done].
    destruct H as [[_ ?]|[_ [->|[x ->]]]]; [simpl in Hr'; congruence|done..].
  - intros calls Ht Hno.
    pose proof (run_keeps_unready calls new_RAGSystem w eq_refl Ht Hno) as Hr.
    unfold start in *.
    destruct (run calls (new_RAGSystem, w)).1 as [s' w']. by apply search_not_ready.
Qed.

Lemma first_run_replies :
  (run [Initialize; IsReady] (start first_run_world)).2 =
  [inr Done; inr (Ready false)].
Proof. by vm_compute. Qed.

(** A fresh process on a store without index: [search] fails before and
    after [initialize], and [isReady] holds after [ingest]. *)
Lemma search_needs_the_ready_flag_witness :
  search (of_string "install") 3 (start first_run_world) =
  (start first_run_world, inl (Error not_ready_message)) ∧
  isReady (ingest (start first_run_world)).1 =
  ((ingest (start first_run_world)).1, inr true) ∧
  (search (of_string "install") 3
     (run [IsReady] (ingest (start first_run_world)).1).1).2
  ≠ inl (Error not_ready_message) ∧
  search (of_string "install") 3
    (run [Initialize; IsReady] (start first_run_world)).1 =
  ((run [Initialize; IsReady] (start first_run_world)).1,
   inl (Error not_ready_message)).
Proof.
  destruct (search_needs_the_ready_flag new_RAGSystem first_run_world
              (of_string "install") 3) as (H1 & H2 & H3).
  assert (ingest (start first_run_world) =
          ((ingest (start first_run_world)).1, inr 1)) as Hi by (by vm_compute).
  destruct (H2 1 _ Hi) as [Ha Hb].
  split; [exact (H1 eq_refl)|]. split; [exact Ha|]. split.
  - exact (Hb [IsReady] (ingest (start first_run_world)).1.2).
  - apply (H3 [Initialize; IsReady]); [by vm_compute|].
    intros n Hn. rewrite first_run_replies in Hn.
    repeat (apply elem_of_cons in Hn as [Hn|Hn]; [discriminate|]).
    by apply elem_of_nil in Hn.
Defined.

(** C3, as the specification words it, fails: in a process that only called
    [initialize] on a store holding the index of an earlier process, no
    index was built, yet [isReady] is [true] and [search] returns results. *)
Lemma search_succeeds_without_ingest :
  ∃ rs,
    (run [Initialize; IsReady; Search (of_string "install") default_limit]
       (start indexed_world)).2 =
    [inr Done; inr (Ready true); inr (Results rs)] ∧
    length rs = 3.
Proof. eexists. split; by vm_compute. Qed.

(** C10. The readiness flag is monotone: once it is on, every call on the
    object ([initialize], [isReady], [search], [ingest]), in any world and
    whatever the call returns or throws, leaves it on, and so does every
    sequence of calls. *)
Theorem ready_is_monotone (calls : list Call) (c : Call) (s : RAGSystem)
    (w : World) :
  ready s = true →
  ready (perform c (s, w)).1.1 = true ∧
  ready (run calls (s, w)).1.1 = true.
Proof.
  intros Hr. split; [by apply perform_keeps_ready | by apply run_keeps_ready].
Qed.

(** A ready object, an [ingest] that fails on an empty corpus, and one
    that fails on [createTable] after the old table was dropped. *)
Lemma ready_is_monotone_witness :
  ready ready_system = true ∧
  (perform Ingest (ready_system, empty_corpus_world)).2
  = inl (Error no_content_message) ∧
  (ready (perform Ingest (ready_system, empty_corpus_world)).1.1 = true ∧
   ready (run [Ingest; Search [] 0; Initialize; IsReady]
            (ready_system, empty_corpus_world)).1.1 = true) ∧
  (perform Ingest (ready_system, failing_create_world)).2
  = inl (External (IoFailure "ENOSPC")) ∧
  tables (perform Ingest (ready_system, failing_create_world)).1.2
    !! "documentation" = None ∧
  (ready (perform Ingest (ready_system, failing_create_world)).1.1 = true ∧
   ready (run [Ingest] (ready_system, failing_create_world)).1.1 = true).
Proof.
  split; [reflexivity|]. split; [by vm_compute|].
  split; [exact (ready_is_monotone _ Ingest ready_system empty_corpus_world eq_refl)|].
  split; [by vm_compute|]. split; [by vm_compute|].
  exact (ready_is_monotone _ Ingest ready_system failing_create_world eq_refl).
Defined.

(** *** The limit of a search *)


Lemma first_rows_honours_limit docs tables fault :
  honours_limit (make_world docs tables fault).
Proof.
  intros rows v limit Hpos. simpl. unfold first_rows.
  rewrite length_fmap, length_take. lia.
Qed.



(** *** Replacing the index *)

(** C5 (as amended). The states of the store that a run of [ingest] makes
    visible hold, under ["documentation"], either no table at all or the
    complete table of the new rows; no state holds a part of the new rows or
    a mix of old and new rows, and the other tables are never touched. A
    reader therefore sees the complete old table, no table (after the old
    one was dropped and before, or without, the new one being created), or
    the complete new table. *)
Theorem ingest_replaces_by_drop_then_create (s : RAGSystem) (w : World) :
  ∃ new,
    visible (ingest (s, w)).1.2 = visible w ++ new ∧
    ∀ t, t ∈ new →
      (t !! "documentation" = None ∨
       t !! "documentation" = Some (corpus_rows w)) ∧
      ∀ name, name ≠ "documentation" → t !! name = tables w !! name.
Proof.
  destruct (ingest_cases s w) as (s1 & w1 & Hw1 & Hready & Hcases).
  assert (tables w1 = tables w) as Ht by (by destruct Hw1 as [->| ->]).
  assert (visible w1 = visible w) as Hv by (by destruct Hw1 as [->| ->]).
  destruct Hcases as [(x & -> & Hw)|[[_ ->]|[Hne ->]]].
  - exists []. rewrite app_nil_r. split; [done|]. by intros t ?%elem_of_nil.
  - exists []. rewrite app_nil_r. split; [done|]. by intros t ?%elem_of_nil.
  - unfold replaced, after_create.
    destruct (after_drop_visible w1) as [Hd|[Hd Hdt]];
      destruct (after_drop_tables w1) as [Hdt'|Hdt'];
      destruct (fault w1 _); simpl_state; rewrite Hd, ?Hdt', ?Hv, ?Ht.
    all: try (exists []; rewrite app_nil_r; split; [done|];
              by intros t ?%elem_of_nil).
    all: try rewrite <- app_assoc.
    all: eexists; (split; [reflexivity|]).
    all: intros t Ht'; repeat (apply elem_of_cons in Ht' as [->|Ht']);
         try (by apply elem_of_nil in Ht').
    all: split; [|intros name Hname].
    all: rewrite ?lookup_insert_eq, ?lookup_delete_eq; auto.
    all: by rewrite ?lookup_insert_ne, ?lookup_delete_ne by done.
Qed.

(** C5, as the specification words it, fails: a run of [ingest] over an
    existing index succeeds, and the first state it makes visible holds
    neither the old table nor the new one. *)
Lemma ingest_shows_the_store_without_table :
  ∃ old t,
    tables indexed_world !! "documentation" = Some old ∧
    corpus_rows indexed_world = [manual_row] ∧
    (ingest (start indexed_world)).2 = inr 1 ∧
    visible (ingest (start indexed_world)).1.2 !! 0 = Some t ∧
    t !! "documentation" = None ∧
    t !! "documentation" ≠ Some old ∧
    t !! "documentation" ≠ Some [manual_row].
Proof.
  do 2 eexists. split; [by vm_compute|]. split; [by vm_compute|].
  split; [by vm_compute|]. split; [by vm_compute|].
  split; [by vm_compute|]. split; by vm_compute.
Qed.

(** C6. On a storage where [dropTable] fails with an I/O error, [ingest]
    does not pass the error on: the handler catches it like any other, the
    run goes on to [createTable] and returns the number of rows. *)
Theorem ingest_swallows_any_drop_failure :
  fault failing_drop_world (OpDropTable "documentation") = Some (IoFailure "EIO") ∧
  (ingest (start failing_drop_world)).2 = inr 1 ∧
  store_log (ingest (start failing_drop_world)).1.2 =
  [CallConnect; CallDropTable "documentation";
   CallCreateTable "documentation" [manual_row]].
Proof. repeat split; by vm_compute. Qed.

(** *** Running [ingest] twice *)

(** C7 (as amended). On an unchanged corpus that yields at least one chunk,
    and with no external call failing, two runs of [ingest] in a row both
    succeed and return the same count, the number of rows of the corpus;
    after each the ["documentation"] table holds exactly these rows, and the
    second run leaves all the tables as the first left them. *)
Theorem ingest_twice_is_idempotent (s : RAGSystem) (w : World) :
  healthy w → corpus_rows w ≠ [] →
  (ingest (s, w)).2 = inr (length (corpus_rows w)) ∧
  (ingest (ingest (s, w)).1).2 = inr (length (corpus_rows w)) ∧
  docs (ingest (s, w)).1.2 = docs w ∧
  tables (ingest (s, w)).1.2 !! "documentation" = Some (corpus_rows w) ∧
  tables (ingest (ingest (s, w)).1).1.2 !! "documentation" = Some (corpus_rows w) ∧
  tables (ingest (ingest (s, w)).1).1.2 = tables (ingest (s, w)).1.2.
Proof.
  intros Hw Hne.
  destruct (ingest_env s w) as (Hd & He & _ & Hf).
  destruct (ingest_healthy s w Hw Hne) as (s1 & w1 & H1 & Ht1 & _).
  rewrite H1 in Hd, He, Hf |- *. simpl in Hd, He, Hf |- *.
  assert (corpus_rows w1 = corpus_rows w) as Hrows by (by apply corpus_rows_env).
  assert (healthy w1) as Hw1 by (intros op; by rewrite Hf).
  destruct (ingest_healthy s1 w1 Hw1) as (s2 & w2 & H2 & Ht2 & _);
    [by rewrite Hrows|].
  rewrite H2. simpl. rewrite Hrows in *.
  split; [done|]. split; [done|]. split; [done|].
  rewrite Ht2, Ht1, insert_insert_eq, lookup_insert_eq. done.
Qed.

Lemma ingest_twice_is_idempotent_witness :
  healthy first_run_world ∧ corpus_rows first_run_world ≠ [] ∧
  (ingest (start first_run_world)).2 = inr (length (corpus_rows first_run_world)) ∧
  (ingest (ingest (start first_run_world)).1).2
  = inr (length (corpus_rows first_run_world)) ∧
  docs (ingest (start first_run_world)).1.2 = docs first_run_world ∧
  tables (ingest (start first_run_world)).1.2 !! "documentation"
  = Some (corpus_rows first_run_world) ∧
  tables (ingest (ingest (start first_run_world)).1).1.2 !! "documentation"
  = Some (corpus_rows first_run_world) ∧
  tables (ingest (ingest (start first_run_world)).1).1.2
  = tables (ingest (start first_run_world)).1.2.
Proof.
  assert (healthy first_run_world) as Hw by (by intros op).
  assert (corpus_rows first_run_world ≠ []) as Hne by (by vm_compute).
  split; [exact Hw|]. split; [exact Hne|].
  exact (ingest_twice_is_idempotent new_RAGSystem first_run_world Hw Hne).
Defined.

(** C7, as the specification words it, fails: on an unchanged corpus
    without documents neither run succeeds; both throw the "no content"
    error. *)
Lemma ingest_twice_fails_on_empty_corpus :
  docs empty_corpus_world = ∅ ∧
  (ingest (start empty_corpus_world)).2 = inl (Error no_content_message) ∧
  docs (ingest (start empty_corpus_world)).1.2 = ∅ ∧
  (ingest (ingest (start empty_corpus_world)).1).2 =
  inl (Error no_content_message).
Proof. repeat split; by vm_compute. Qed.

End RagSpec.
(* ===================================================================== *)
(** ** Where the chunks lie in the document *)
(* ===================================================================== *)

Module LayoutFacts.
Import Js JsFacts Chunker ChunkerFacts Layout.

Lemma trim_start_head s c : head (trim_start s) = Some c → is_space c = false.
Proof.
  induction s as [|d s IH]; simpl; [done|].
  destruct (is_space d) eqn:Hd; [done|]. simpl. by intros [= <-].
Qed.

Lemma trim_end_last s c : last (trim_end s) = Some c → is_space c = false.
Proof. unfold trim_end. rewrite last_reverse. apply trim_start_head. Qed.

Lemma trim_end_cons_keep c s :
  is_space c = false → trim_end (c :: s) = c :: trim_end s.
Proof.
  intros Hc. unfold trim_end. rewrite reverse_cons.
  destruct (trim_start (reverse s)) as [|d t] eqn:Ht.
  - destruct (trim_start_suffix (reverse s)) as (l & Hl & Hsp).
    rewrite Ht, app_nil_r in Hl. subst l.
    rewrite trim_start_app_space by done. simpl. by rewrite Hc.
  - rewrite trim_start_app_keep by (by rewrite Ht).
    by rewrite Ht, reverse_app.
Qed.

Lemma trim_end_prefix s :
  ∃ r, s = trim_end s ++ r ∧ Forall (λ c, is_space c = true) r.
Proof.
  destruct (trim_start_suffix (reverse s)) as (l & Hl & Hsp).
  exists (reverse l). split.
  - unfold trim_end. rewrite <- reverse_app, <- Hl. by rewrite reverse_involutive.
  - by apply Forall_reverse.
Qed.

(** [trim] removes a run of whitespace at each end and nothing else. *)
Lemma trim_decompose s :
  ∃ l r, s = l ++ trim s ++ r ∧
         Forall (λ c, is_space c = true) l ∧ Forall (λ c, is_space c = true) r.
Proof.
  destruct (trim_start_suffix s) as (l & Hl & Hsp).
  destruct (trim_end_prefix (trim_start s)) as (r & Hr & Hsp').
  exists l, r. split; [|done]. unfold trim. by rewrite <- Hr.
Qed.

Lemma trim_trimmed s : trimmed (trim s).
Proof.
  split; [|apply trim_end_last].
  unfold trim. intros c Hc.
  destruct (trim_start s) as [|d t] eqn:Ht; [done|].
  assert (is_space d = false) as Hd by (apply (trim_start_head s); by rewrite Ht).
  rewrite trim_end_cons_keep in Hc by done. simpl in Hc. by injection Hc as <-.
Qed.

Lemma Tiles_cons_unit c seg segs rest :
  Tiles (seg :: segs) rest → Tiles ((c :: seg) :: segs) (c :: rest).
Proof.
  inversion 1; subst; [constructor|].
  rewrite app_comm_cons. by constructor.
Qed.

Lemma HeaderSplit_Tiles prev s segs : HeaderSplit prev s segs → Tiles segs s.
Proof.
  induction 1 as [prev|prev k w rest segs Hb Hk Hw Hrest IH
                  |prev c rest seg segs Hno Hrest IH].
  - constructor.
  - apply (Tiles_more [] (replicate k hash ++ [w]) segs rest) in IH.
    + by rewrite <- app_assoc in IH.
    + by exists k, w.
  - by apply Tiles_cons_unit.
Qed.

Lemma InOrder_gap cs pre s : InOrder cs s → InOrder cs (pre ++ s).
Proof.
  destruct 1 as [s|c cs p rest H]; [constructor|].
  rewrite app_assoc. by constructor.
Qed.

Lemma InOrder_length cs s :
  InOrder cs s → sum_list (length <$> cs) ≤ length s.
Proof.
  induction 1 as [s|c cs pre rest H IH]; [simpl; lia|].
  rewrite fmap_cons, !length_app. simpl. lia.
Qed.

Lemma Tiles_chunks segs s :
  Tiles segs s → InOrder (filter (λ c, 50 < length c) (trim <$> segs)) s.
Proof.
  induction 1 as [seg|seg m segs rest Hm Ht IH].
  - destruct (trim_decompose seg) as (l & r & Hseg & _).
    simpl. rewrite filter_cons, filter_nil. destruct (decide _); [|constructor].
    rewrite Hseg at 2. constructor. constructor.
  - destruct (trim_decompose seg) as (l & r & Hseg & _).
    rewrite fmap_cons, filter_cons. destruct (decide _).
    + rewrite Hseg at 2. rewrite <- !app_assoc. constructor.
      by apply InOrder_gap, InOrder_gap.
    + by apply InOrder_gap, InOrder_gap.
Qed.

End LayoutFacts.

Module ChunkerExtra.
Import Js JsFacts Chunker ChunkerFacts Layout LayoutFacts.

Lemma sum_list_lower (ls : list nat) k :
  Forall (λ n, k ≤ n) ls → k * length ls ≤ sum_list ls.
Proof. induction 1 as [|n ls Hn _ IH]; simpl; lia. Qed.

(** X1. The chunks of a document are pieces of it: they occur in the
    document one after the other without overlap, each longer than 50 code
    units and with no whitespace at either end; so a document of [n] code
    units yields at most [n / 51] chunks. *)
Theorem chunks_lie_in_the_document (text : jsstring) :
  InOrder (chunk text) text ∧
  Forall (λ c, 50 < length c ∧ trimmed c) (chunk text) ∧
  51 * length (chunk text) ≤ length text.
Proof.
  assert (InOrder (chunk text) text) as Hin.
  { unfold chunk. apply Tiles_chunks.
    apply (HeaderSplit_Tiles None), split_header_spec. }
  assert (Forall (λ c, 50 < length c ∧ trimmed c) (chunk text)) as Hall.
  { apply Forall_forall. intros c [Hlen Hc]%list_elem_of_filter.
    split; [done|]. apply list_elem_of_fmap in Hc as (seg & -> & _).
    apply trim_trimmed. }
  split; [done|]. split; [done|].
  etrans; [|apply (InOrder_length _ _ Hin)].
  rewrite <- (length_fmap length). apply sum_list_lower.
  apply Forall_fmap. eapply Forall_impl; [exact Hall|].
  intros c [Hc _]. simpl. lia.
Qed.

(** X2. [split] loses nothing but the markers: the document is its segments
    in order, with one header marker (a run of ['#'] and one whitespace
    unit) between each two neighbours. *)
Theorem split_header_tiles_the_document (text : jsstring) :
  Tiles (split_header text) text.
Proof. apply (HeaderSplit_Tiles None), split_header_spec. Qed.

End ChunkerExtra.
(* ===================================================================== *)
(** ** More on [RAGSystem] *)
(* ===================================================================== *)

Module RagExtra.
Import Js Chunker Rag RagFacts Examples Failures.

(** *** What the index holds *)

Lemma corpus_rows_elem w row :
  row ∈ corpus_rows w ↔
  ∃ file content,
    docs w !! file = Some content ∧ text row ∈ chunk content ∧
    source row = file ∧ vector row = embedding w (text row).
Proof.
  unfold corpus_rows. rewrite list_elem_of_In, in_flat_map. split.
  - intros ([file content] & Hfc & Hrow).
    apply list_elem_of_In, elem_of_map_to_list in Hfc.
    apply list_elem_of_In, list_elem_of_fmap in Hrow as (c & -> & Hc).
    exists file, content. simpl in *. done.
  - intros (file & content & Hdoc & Hc & Hsrc & Hv).
    exists (file, content). split.
    + by apply list_elem_of_In, elem_of_map_to_list.
    + apply list_elem_of_In, list_elem_of_fmap. exists (text row).
      split; [|done]. destruct row as [v t f]. simpl in *. by subst.
Qed.

(** X3. After a successful [ingest] the ["documentation"] table holds one
    row for every chunk of every document of the corpus and nothing else: a
    row is stored exactly when its source is a document, its text a chunk of
    that document, and its vector the embedding of that text. The count
    returned is the number of rows, and every stored text is longer than 50
    code units. *)
Theorem index_holds_the_chunks (s : RAGSystem) (w : World) (σ' : State) (n : nat) :
  ingest (s, w) = (σ', inr n) →
  ∃ rows,
    tables σ'.2 !! "documentation" = Some rows ∧
    n = length rows ∧
    (∀ row, row ∈ rows ↔
       ∃ file content,
         docs w !! file = Some content ∧ text row ∈ chunk content ∧
         source row = file ∧ vector row = embedding w (text row)) ∧
    Forall (λ row, 50 < length (text row)) rows.
Proof.
  intros Hi. destruct (ingest_success _ _ _ _ Hi) as (_ & -> & Ht).
  exists (corpus_rows w). split; [done|]. split; [done|].
  split; [apply corpus_rows_elem|].
  apply Forall_forall. intros row (file & content & _ & Hc & _)%corpus_rows_elem.
  unfold chunk in Hc. by apply list_elem_of_filter in Hc as [? _].
Qed.

Lemma index_holds_the_chunks_witness :
  ingest (start first_run_world) = ((ingest (start first_run_world)).1, inr 1) ∧
  ∃ rows,
    tables (ingest (start first_run_world)).1.2 !! "documentation" = Some rows ∧
    1 = length rows ∧
    (∀ row, row ∈ rows ↔
       ∃ file content,
         docs first_run_world !! file = Some content ∧ text row ∈ chunk content ∧
         source row = file ∧ vector row = embedding first_run_world (text row)) ∧
    Forall (λ row, 50 < length (text row)) rows.
Proof.
  assert (ingest (start first_run_world) =
          ((ingest (start first_run_world)).1, inr 1)) as Hi by (by vm_compute).
  split; [exact Hi|].
  exact (index_holds_the_chunks new_RAGSystem first_run_world _ 1 Hi).
Defined.

(** *** [initialize] *)

(** X4. [initialize] only probes the store: it writes no table. When it
    succeeds, [db] and [embedder] are set and the flag is on exactly if it
    was on before or the store lists a ["documentation"] table; when it
    fails, the error is the failed external call's and the flag is as
    before. It succeeds whenever no external call fails. *)
Theorem initialize_probes_the_store (s : RAGSystem) (w : World) :
  tables (initialize (s, w)).1.2 = tables w ∧
  visible (initialize (s, w)).1.2 = visible w ∧
  match (initialize (s, w)).2 with
  | inr _ =>
      is_Some (db (initialize (s, w)).1.1) ∧
      is_Some (embedder (initialize (s, w)).1.1) ∧
      ready (initialize (s, w)).1.1 =
      ready s || bool_decide (is_Some (tables w !! "documentation"))
  | inl e =>
      (∃ x, e = External x) ∧ ready (initialize (s, w)).1.1 = ready s
  end ∧
  (healthy w → (initialize (s, w)).2 = inr tt).
Proof.
  assert (bool_decide ("documentation" ∈ elements (dom (tables w))) =
          bool_decide (is_Some (tables w !! "documentation"))) as Hb.
  { apply bool_decide_ext. by rewrite elem_of_elements, elem_of_dom. }
  unfold initialize. destruct s as [d e rd]. unfold_calls.
  destruct (fault w OpConnect) eqn:H1; simpl_state.
  { repeat split; eauto. intros Hw. by rewrite Hw in H1. }
  destruct (fault w OpPipeline) eqn:H2; simpl_state.
  { repeat split; eauto. intros Hw. by rewrite Hw in H2. }
  destruct (fault w OpTableNames) eqn:H3; simpl_state.
  { repeat split; eauto. intros Hw. by rewrite Hw in H3. }
  rewrite Hb.
  destruct (bool_decide (is_Some (tables w !! "documentation"))); simpl_state;
    repeat split; eauto; by rewrite ?orb_true_r, ?orb_false_r.
Qed.

(** *** [search] *)

(** X5. [search] only reads: it assigns no field of the object, leaves the
    tables and the visible states of the store as they are, and the only
    calls it makes on the store are [openTable] and [vectorSearch] on
    ["documentation"], with the limit it was given. *)
Theorem search_only_reads (s : RAGSystem) (w : World) (query : jsstring)
    (limit : Z) :
  (search query limit (s, w)).1.1 = s ∧
  tables (search query limit (s, w)).1.2 = tables w ∧
  visible (search query limit (s, w)).1.2 = visible w ∧
  ∃ l, store_log (search query limit (s, w)).1.2 = store_log w ++ l ∧
       ∀ c, c ∈ l →
            c = CallOpenTable "documentation" ∨
            ∃ v, c = CallVectorSearch "documentation" v limit.
Proof.
  unfold search. destruct s as [d e [|]]; unfold_calls.
  2:{ repeat split. exists []. rewrite app_nil_r. split; [done|].
      by intros c ?%elem_of_nil. }
  destruct e as [p|]; simpl_state.
  2:{ repeat split. exists []. rewrite app_nil_r. split; [done|].
      by intros c ?%elem_of_nil. }
  destruct (fault w (OpEmbed query)); simpl_state.
  { repeat split. exists []. rewrite app_nil_r. split; [done|].
    by intros c ?%elem_of_nil. }
  destruct d as [c0|]; simpl_state.
  2:{ repeat split. exists []. rewrite app_nil_r. split; [done|].
      by intros c ?%elem_of_nil. }
  assert (∀ l : list StoreCall,
            (l = [CallOpenTable "documentation"] ∨
             l = [CallOpenTable "documentation";
                  CallVectorSearch "documentation" (embedding w query) limit]) →
            ∀ c, c ∈ l →
              c = CallOpenTable "documentation" ∨
              ∃ v, c = CallVectorSearch "documentation" v limit) as Hl.
  { intros l [->| ->] c Hc;
      repeat (apply elem_of_cons in Hc as [->|Hc]); eauto;
      by apply elem_of_nil in Hc. }
  destruct (fault w (OpOpenTable "documentation")); simpl_state.
  { repeat split. eexists. split; [done|]. apply Hl. by left. }
  destruct (tables w !! "documentation") eqn:Ht; simpl_state.
  2:{ repeat split. eexists. split; [done|]. apply Hl. by left. }
  destruct (fault w (OpVectorSearch "documentation" limit)); simpl_state;
    rewrite ?Ht; simpl_state; repeat split;
    eexists; (split; [by rewrite <- app_assoc|]); apply Hl; by right.
Qed.

(** *** A document that cannot be read or embedded *)

Lemma call_embedder_run s w c :
  is_Some (embedder s) →
  call_embedder c (s, w) =
  ((s, w), match fault w (OpEmbed c) with
           | Some x => inl (External x)
           | None => inr (embedding w c)
           end).
Proof.
  intros [p Hp]. unfold_calls. rewrite Hp. simpl_state.
  by destruct (fault w (OpEmbed c)).
Qed.

Lemma readFileSync_run s w file content :
  docs w !! file = Some content →
  readFileSync file (s, w) =
  ((s, w), match fault w (OpReadFile file) with
           | Some x => inl (External x)
           | None => inr content
           end).
Proof.
  intros Hdoc. unfold_calls.
  destruct (fault w (OpReadFile file)); simpl_state; by rewrite ?Hdoc.
Qed.

(** The inner loop gets through only if the model embeds every chunk. *)
Lemma push_chunks_ok s w file chunks : ∀ data σ rows,
  is_Some (embedder s) →
  foldM (push_chunk file) chunks data (s, w) = (σ, inr rows) →
  ∀ c, c ∈ chunks → fault w (OpEmbed c) = None.
Proof.
  induction chunks as [|c chunks IH]; intros data σ rows He Hrun c' Hc'.
  { by apply elem_of_nil in Hc'. }
  simpl in Hrun. unfold push_chunk at 1 in Hrun.
  pose proof (call_embedder_run s w c He) as Hemb.
  destruct (fault w (OpEmbed c)) as [x|] eqn:Hf.
  - by rewrite (bind_inl _ _ _ _ _ (bind_inl _ _ _ _ _ Hemb)) in Hrun.
  - rewrite (bind_inr _ _ _ _ _ (bind_inr _ _ _ _ _ Hemb)) in Hrun.
    apply elem_of_cons in Hc' as [->|Hc']; [done|]. by eapply IH.
Qed.

(** The outer loop gets through only if every file is read and every chunk
    of every file embedded. *)
Lemma ingest_files_ok s w (fcs : list (string * jsstring)) : ∀ data σ rows,
  is_Some (embedder s) →
  (∀ fc, fc ∈ fcs → docs w !! fc.1 = Some fc.2) →
  foldM ingest_file fcs.*1 data (s, w) = (σ, inr rows) →
  ∀ fc, fc ∈ fcs →
    fault w (OpReadFile fc.1) = None ∧
    ∀ c, c ∈ chunk fc.2 → fault w (OpEmbed c) = None.
Proof.
  induction fcs as [|[file content] fcs IH]; intros data σ rows He Hdocs Hrun fc Hfc.
  { by apply elem_of_nil in Hfc. }
  simpl in Hrun.
  assert (docs w !! file = Some content) as Hdoc.
  { apply (Hdocs (file, content)). left. }
  destruct (ingest_file data file (s, w)) as [σ1 [e|rows1]] eqn:Hfile.
  { by rewrite (bind_inl _ _ _ _ _ Hfile) in Hrun. }
  rewrite (bind_inr _ _ _ _ _ Hfile) in Hrun.
  destruct (ingest_file_spec s w data file content He Hdoc) as (r & Hr & _).
  rewrite Hfile in Hr. injection Hr as -> <-.
  unfold ingest_file in Hfile.
  pose proof (readFileSync_run s w file content Hdoc) as Hread.
  apply elem_of_cons in Hfc as [->|Hfc].
  - simpl. destruct (fault w (OpReadFile file)) as [x|] eqn:Hf.
    { by rewrite (bind_inl _ _ _ _ _ Hread) in Hfile. }
    rewrite (bind_inr _ _ _ _ _ Hread) in Hfile.
    split; [done|]. by eapply push_chunks_ok.
  - eapply IH; [done| |exact Hrun|done].
    intros fc' Hfc'. apply Hdocs. by right.
Qed.

Lemma collect_ok s w σ rows :
  is_Some (embedder s) →
  collect (s, w) = (σ, inr rows) →
  ∀ file content, docs w !! file = Some content →
    fault w (OpReadFile file) = None ∧
    ∀ c, c ∈ chunk content → fault w (OpEmbed c) = None.
Proof.
  intros He Hrun file content Hdoc. unfold collect in Hrun.
  destruct (glob (s, w)) as [σ1 [e|files]] eqn:Hglob.
  { by rewrite (bind_inl _ _ _ _ _ Hglob) in Hrun. }
  rewrite (bind_inr _ _ _ _ _ Hglob) in Hrun.
  revert Hglob. unfold_calls.
  destruct (fault w OpGlob); simpl_state; [done|]. intros [= <- <-].
  apply (ingest_files_ok s w (map_to_list (docs w)) [] σ rows He)
    with (fc := (file, content)); [|done|by apply elem_of_map_to_list].
  intros [f c] Hfc. by apply elem_of_map_to_list.
Qed.

(** X6. If a document of the corpus cannot be read, or the model fails on
    one of its chunks, [ingest] throws the error of a failed external call
    and has not reached the store's tables: the index of an earlier run, its
    visible states and the flag are as before. *)
Theorem ingest_needs_every_document (s : RAGSystem) (w : World)
    (file : string) (content : jsstring) :
  docs w !! file = Some content →
  (is_Some (fault w (OpReadFile file)) ∨
   ∃ c, c ∈ chunk content ∧ is_Some (fault w (OpEmbed c))) →
  (∃ x, (ingest (s, w)).2 = inl (External x)) ∧
  tables (ingest (s, w)).1.2 = tables w ∧
  visible (ingest (s, w)).1.2 = visible w ∧
  ready (ingest (s, w)).1.1 = ready s.
Proof.
  intros Hdoc Hfault.
  destruct (prepare_spec s w) as (s1 & w1 & r & Hprep & Hw1 & Hready & Hr & Ho).
  assert (tables w1 = tables w ∧ visible w1 = visible w ∧ docs w1 = docs w ∧
          fault w1 = fault w) as (Ht & Hv & Hd & Hf)
    by (by destruct Hw1 as [->| ->]).
  rewrite ingest_phases.
  destruct Ho as [->|[[x ->] _]].
  2:{ rewrite (bind_inl _ _ _ _ _ Hprep). simpl. eauto. }
  rewrite (bind_inr _ _ _ _ _ Hprep). destruct Hr as [_ Hemb].
  destruct (collect_spec s1 w1 Hemb) as (r & Hcol & Ho).
  destruct Ho as [->|[[x ->] _]].
  2:{ rewrite (bind_inl _ _ _ _ _ Hcol). simpl. eauto. }
  exfalso. rewrite <- Hd in Hdoc.
  destruct (collect_ok s1 w1 _ _ Hemb Hcol file content Hdoc) as [Hread Hembed].
  rewrite Hf in Hread, Hembed.
  destruct Hfault as [[x Hx]|(c & Hc & [x Hx])].
  - congruence.
  - specialize (Hembed c Hc). congruence.
Qed.

Lemma ingest_needs_every_document_witness :
  (∃ x, (ingest (ready_system, unreadable_world)).2 = inl (External x)) ∧
  tables (ingest (ready_system, unreadable_world)).1.2 = tables unreadable_world ∧
  visible (ingest (ready_system, unreadable_world)).1.2 = visible unreadable_world ∧
  ready (ingest (ready_system, unreadable_world)).1.1 = ready ready_system.
Proof.
  apply (ingest_needs_every_document ready_system unreadable_world
           "manual.md" titled_document).
  - by vm_compute.
  - left. vm_compute. by eexists.
Defined.

End RagExtra.
(* ===================================================================== *)
(** ** The script and [RAGSystem.ingest] *)
(* ===================================================================== *)

Module ScriptFacts.
Import Js Chunker Rag RagFacts RagExtra Examples.

(** The loops of the script and of [ingest] give the same rows, or fail
    with the same error, which is that of an external call. *)
Lemma push_chunks_agree p file s0 s w chunks : ∀ data,
  is_Some (embedder s) →
  ∃ r, foldM (Script.push_chunk p file) chunks data (s0, w) = ((s0, w), r) ∧
       foldM (push_chunk file) chunks data (s, w) = ((s, w), r) ∧
       Script.external_failure r.
Proof.
  induction chunks as [|c chunks IH]; intros data He; simpl.
  { by eexists. }
  unfold Script.push_chunk at 1, push_chunk at 1.
  pose proof (call_embedder_run s w c He) as Hemb.
  assert (Script.call_extractor p c (s0, w) =
          ((s0, w), match fault w (OpEmbed c) with
                    | Some x => inl (External x)
                    | None => inr (embedding w c)
                    end)) as Hext.
  { unfold Script.call_extractor. unfold_calls.
    by destruct (fault w (OpEmbed c)). }
  destruct (fault w (OpEmbed c)) as [x|].
  - rewrite (bind_inl _ _ _ _ _ (bind_inl _ _ _ _ _ Hemb)).
    rewrite (bind_inl _ _ _ _ _ (bind_inl _ _ _ _ _ Hext)).
    eexists. split; [done|]. split; [done|]. by eexists.
  - rewrite (bind_inr _ _ _ _ _ (bind_inr _ _ _ _ _ Hemb)).
    rewrite (bind_inr _ _ _ _ _ (bind_inr _ _ _ _ _ Hext)). by apply IH.
Qed.

Lemma files_agree p s0 s w files : ∀ data,
  is_Some (embedder s) →
  ∃ r, foldM (Script.process_file p) files data (s0, w) = ((s0, w), r) ∧
       foldM ingest_file files data (s, w) = ((s, w), r) ∧
       Script.external_failure r.
Proof.
  induction files as [|file files IH]; intros data He; simpl.
  { by eexists. }
  unfold Script.process_file at 1, ingest_file at 1.
  assert (∃ r0, readFileSync file (s0, w) = ((s0, w), r0) ∧
                readFileSync file (s, w) = ((s, w), r0) ∧
                Script.external_failure r0) as (r0 & H0 & H1 & Hx0).
  { unfold_calls. destruct (fault w (OpReadFile file)); simpl_state.
    { eexists. split; [done|]. split; [done|]. by eexists. }
    destruct (docs w !! file); eexists; (split; [done|]); (split; [done|]);
      simpl; eauto. }
  rewrite !bind_assoc.
  destruct r0 as [e|content].
  - rewrite (bind_inl _ _ _ _ _ H0), (bind_inl _ _ _ _ _ H1). by eexists.
  - rewrite (bind_inr _ _ _ _ _ H0), (bind_inr _ _ _ _ _ H1).
    destruct (push_chunks_agree p file s0 s w (chunk content) data He)
      as ([e|rows] & Hs & Hi & Hx).
    + rewrite (bind_inl _ _ _ _ _ Hs), (bind_inl _ _ _ _ _ Hi). by eexists.
    + rewrite (bind_inr _ _ _ _ _ Hs), (bind_inr _ _ _ _ _ Hi). by apply IH.
Qed.

End ScriptFacts.

Module ScriptSpec.
Import Js Chunker Rag RagFacts RagExtra ScriptFacts Examples.

(** X7. The script and [ingest] are one pipeline: run on the same world,
    [main()] of the script leaves the store, its log and its visible states
    exactly as [ingest()] called on a fresh object does. Their results
    differ only on a corpus without eligible chunk, where [ingest] throws
    its no-content error and the script returns normally; every other error
    is the same on both sides. *)
Theorem script_agrees_with_ingest (s : RAGSystem) (w : World) :
  (Script.main (s, w)).1.1 = s ∧
  (Script.main (s, w)).1.2 = (ingest (start w)).1.2 ∧
  match (ingest (start w)).2 with
  | inr _ => (Script.main (s, w)).2 = inr tt
  | inl (Error _) => (Script.main (s, w)).2 = inr tt
  | inl e => (Script.main (s, w)).2 = inl e
  end.
Proof.
  unfold Script.main, ingest, start, new_RAGSystem. unfold_calls.
  destruct (fault w OpConnect); simpl_state; [done|].
  destruct (fault w OpPipeline); simpl_state; [done|].
  destruct (fault w OpGlob); simpl_state; [done|].
  destruct (files_agree FeatureExtraction s
              (set_embedder FeatureExtraction
                 (set_db LanceDb
                    {| db := None; embedder := None; ready := false |}))
              (log_call CallConnect w) (map_to_list (docs w)).*1 [])
    as ([e|data] & -> & -> & Hx); [by eexists| |].
  { by destruct Hx as [x ->]. }
  destruct (decide (length data = 0)); [done|]. simpl_state.
  destruct (fault w (OpDropTable "documentation")); simpl_state;
    [|destruct (tables w !! "documentation"); simpl_state];
    by destruct (fault w (OpCreateTable "documentation")).
Qed.

(** X8. On a corpus none of whose documents yields a chunk, the script
    writes nothing: the tables and the visible states of the store are as
    before, and when no external call fails [main()] returns normally
    after the connection, without a call to [dropTable] or [createTable]. *)
Theorem script_skips_an_empty_corpus (s : RAGSystem) (w : World) :
  no_eligible_chunk w →
  tables (Script.main (s, w)).1.2 = tables w ∧
  visible (Script.main (s, w)).1.2 = visible w ∧
  (healthy w →
   (Script.main (s, w)).2 = inr tt ∧
   store_log (Script.main (s, w)).1.2 = store_log w ++ [CallConnect]).
Proof.
  intros Hno. apply corpus_rows_nil in Hno.
  unfold Script.main. unfold_calls.
  destruct (fault w OpConnect) eqn:H1; simpl_state.
  { repeat split; try done; exfalso; eapply not_healthy; eassumption. }
  destruct (fault w OpPipeline) eqn:H2; simpl_state.
  { repeat split; try done; exfalso; eapply not_healthy; eassumption. }
  destruct (fault w OpGlob) eqn:H3; simpl_state.
  { repeat split; try done; exfalso; eapply not_healthy; eassumption. }
  set (s1 := {| db := Some LanceDb; embedder := Some FeatureExtraction;
                ready := false |}).
  set (w1 := log_call CallConnect w).
  destruct (files_agree FeatureExtraction s s1 w1 (map_to_list (docs w)).*1 [])
    as (r & -> & Hi & _); [by eexists|].
  assert (collect (s1, w1) = ((s1, w1), r)) as Hcol.
  { unfold collect. rewrite (bind_inr _ _ _ (s1, w1) (map_to_list (docs w)).*1);
      [done|]. unfold_calls. subst w1. simpl_state. by rewrite H3. }
  destruct (collect_spec s1 w1) as (r' & Hr' & Ho); [by eexists|].
  rewrite Hcol in Hr'. injection Hr' as <-.
  assert (corpus_rows w1 = []) as Hnil by done.
  rewrite Hnil in Ho. destruct Ho as [->|[[x ->] Hw]]; simpl_state.
  - done.
  - repeat split; try done; by exfalso.
Qed.

Lemma script_skips_an_empty_corpus_witness :
  no_eligible_chunk short_corpus_world ∧
  tables (Script.main (new_RAGSystem, short_corpus_world)).1.2 =
    tables short_corpus_world ∧
  (Script.main (new_RAGSystem, short_corpus_world)).2 = inr tt ∧
  store_log (Script.main (new_RAGSystem, short_corpus_world)).1.2 =
    [CallConnect].
Proof.
  assert (no_eligible_chunk short_corpus_world) as H.
  { intros file content. by apply RagSpec.scenario_docs_no_chunk. }
  assert (healthy short_corpus_world) as Hh by (by intros op).
  destruct (script_skips_an_empty_corpus new_RAGSystem short_corpus_world H)
    as (Ht & _ & Hr).
  split; [exact H|]. split; [exact Ht|]. exact (Hr Hh).
Defined.

End ScriptSpec.
(* ===================================================================== *)
(** ** The documentation tools *)
(* ===================================================================== *)

Module ToolsSpec.
Import Js Chunker Rag RagFacts Tools Examples.

Lemma search_documentation_run basename args s w :
  search_documentation basename args (s, w) =
  (if negb (ready s) then ret (text_result loading_message)
   else
     match args with
     | WithArgs (Some query) =>
         let* results := search query default_limit in
         ret (text_result (join [LF] (block basename <$> results)))
     | _ => ret (text_result query_required_message)
     end) (s, w).
Proof. done. Qed.

(** X9. [search_documentation] checks the flag before it looks at its
    argument, and its own checks cover the one of [search]: with the flag
    off it returns the "still loading" text whatever the argument is, with
    the flag on and no string under [query] it returns the "query required"
    text, in both cases as an ordinary result and without a call on the
    model or the store; and in no state does it fail with an [Error] of
    the program's own, such as the not-ready error of [search]. *)
Theorem search_documentation_guards (basename : string → jsstring)
    (s : RAGSystem) (w : World) (args : Args) :
  (ready s = false →
   search_documentation basename args (s, w) =
   ((s, w), inr (text_result loading_message))) ∧
  (ready s = true → (∀ query, args ≠ WithArgs (Some query)) →
   search_documentation basename args (s, w) =
   ((s, w), inr (text_result query_required_message))) ∧
  (∀ message,
     (search_documentation basename args (s, w)).2 ≠ inl (Error message)).
Proof.
  rewrite search_documentation_run. split; [|split].
  - by intros ->.
  - intros -> Hq. destruct args as [|[q|]]; [done| |done]. by destruct (Hq q).
  - intros message. destruct (ready s) eqn:Hr; [|done]. cbn [negb].
    destruct args as [|[q|]]; [done| |done].
    destruct (search_spec s w q default_limit)
      as (w' & r & Hs & _ & _ & _ & _ & Hres).
    unfold bind. rewrite Hs. destruct r as [e|rs]; [|done].
    simpl_state. destruct Hres as [[_ Hoff]|[_ [->|[x ->]]]]; congruence.
Qed.



(** X11. When [ingest_documentation] returns, the index is there: the
    ["documentation"] table holds the rows of the corpus, the flag is on,
    and the number in the text returned is the number of rows stored,
    written in decimal. It returns exactly when [ingest] does: a failure
    of [ingest] is thrown on as it is. *)
Theorem ingest_documentation_reports_the_rows (s : RAGSystem) (w : World) :
  match (ingest_documentation (s, w)).2 with
  | inr result =>
      ∃ rows,
        tables (ingest_documentation (s, w)).1.2 !! "documentation" = Some rows ∧
        rows = corpus_rows w ∧ rows ≠ [] ∧
        ready (ingest_documentation (s, w)).1.1 = true ∧
        result = text_result
                   (of_string "Documentation ingested successfully! "
                      ++ decimal (length rows) ++ of_string " chunks saved.")
  | inl e => (ingest (s, w)).2 = inl e
  end ∧
  (ingest_documentation (s, w)).1 = (ingest (s, w)).1.
Proof.
  unfold ingest_documentation, bind.
  destruct (ingest (s, w)) as [σ' [e|n]] eqn:Hi; [done|].
  destruct (ingest_success _ _ _ _ Hi) as (Hr & -> & Ht).
  split; [|done]. exists (corpus_rows w). simpl.
  split; [done|]. split; [done|]. split; [|done].
  intros Hnil. destruct (ingest_without_rows s w Hnil) as (? & ? & ? & H & _).
  congruence.
Qed.

(** A rendered answer is empty or starts with the dashes of a block. *)
Lemma join_blocks_head basename (rs : list SearchResult) :
  join [LF] (block basename <$> rs) = [] ∨
  ∃ rest, join [LF] (block basename <$> rs) = 45%N :: rest.
Proof.
  destruct rs as [|r rs]; [by left|]. right.
  rewrite fmap_cons. simpl. destruct (block basename <$> rs); by eexists.
Qed.

(** X21. Once [ingest_documentation] has returned, [search_documentation]
    no longer answers that the system is loading, whatever its argument:
    it asks for a query, returns what the store found, or throws the error
    of the model or the store. *)
Theorem ingested_is_loaded (basename : string → jsstring) (s : RAGSystem)
    (w : World) (σ' : State) (result : ToolResult) (args : Args) :
  ingest_documentation (s, w) = (σ', inr result) →
  (search_documentation basename args σ').2 ≠ inr (text_result loading_message).
Proof.
  unfold ingest_documentation, bind.
  destruct (ingest (s, w)) as [σ1 [e|n]] eqn:Hi; [done|]. intros [= <- _].
  destruct (ingest_success _ _ _ _ Hi) as (Hr & _ & _).
  destruct σ1 as [s1 w1]. simpl in Hr.
  rewrite search_documentation_run, Hr. cbn [negb].
  destruct args as [|[q|]]; [done| |done].
  unfold bind. destruct (search q default_limit (s1, w1)) as [σ2 [e|rs]]; [done|].
  simpl. intros [= Heq].
  by destruct (join_blocks_head basename rs) as [H|[rest H]]; rewrite H in Heq.
Qed.

Lemma ingested_is_loaded_witness :
  (ingest_documentation (start first_run_world)).2 =
    inr (text_result
           (of_string "Documentation ingested successfully! 1 chunks saved.")) ∧
  (search_documentation of_string (WithArgs (Some (of_string "install")))
     (ingest_documentation (start first_run_world)).1).2
  ≠ inr (text_result loading_message).
Proof.
  split; [by vm_compute|].
  apply (ingested_is_loaded of_string new_RAGSystem first_run_world
           (ingest_documentation (start first_run_world)).1
           (text_result
              (of_string "Documentation ingested successfully! 1 chunks saved."))).
  by vm_compute.
Defined.

End ToolsSpec.
(* ===================================================================== *)
(** ** The prompt handlers *)
(* ===================================================================== *)

Module PromptsSpec.
Import Js Prompts.

(** X12. [GetPrompt] answers exactly the prompts [ListPrompts] announces:
    for a listed name it returns one user message whatever the arguments
    are, also without any; for every other name it throws
    ["Prompt not found: "] followed by the name. *)
Theorem get_prompt_serves_the_listed_prompts (name : jsstring)
    (args : PromptArguments) :
  (name ∈ (λ p, of_string (Prompts.name p)) <$> list_prompts →
   ∃ text, get_prompt name args = inr [UserText text]) ∧
  (name ∉ (λ p, of_string (Prompts.name p)) <$> list_prompts →
   get_prompt name args =
   inl (ThrownError (of_string "Prompt not found: " ++ name))).
Proof.
  unfold get_prompt, list_prompts. rewrite !fmap_cons, fmap_nil. cbn [Prompts.name].
  split.
  - intros H. repeat case_decide; eauto.
    repeat (apply elem_of_cons in H as [H|H]; [done|]). by apply elem_of_nil in H.
  - intros H. repeat case_decide; [subst..|done].
    + destruct H. apply list_elem_of_here.
    + destruct H. apply list_elem_of_further, list_elem_of_here.
Qed.


End PromptsSpec.
(* ===================================================================== *)
(** ** The Slingr client *)
(* ===================================================================== *)

Module ClientSpec.
Import Js Value Client.

Lemma replace_nonempty pattern replacement s :
  replacement ≠ [] → s ≠ [] → replace pattern replacement s ≠ [].
Proof.
  intros Hr Hs. destruct s as [|c s]; [done|]. simpl.
  case_bool_decide; [|done]. by destruct replacement.
Qed.

(** [replace] leaves the string as it is or rewrites one occurrence of the
    pattern. *)
Lemma replace_spec pattern replacement s :
  replace pattern replacement s = s ∨
  ∃ before after,
    s = before ++ pattern ++ after ∧
    replace pattern replacement s = before ++ replacement ++ after.
Proof.
  induction s as [|c s IH]; simpl.
  - case_bool_decide as H; [|by left]. right. exists [], [].
    rewrite take_nil in H. subst. by rewrite drop_nil, !app_nil_r.
  - case_bool_decide as H.
    + right. exists [], (drop (length pattern) (c :: s)). split; [|done].
      simpl. rewrite <- H at 1. by rewrite take_drop.
    + destruct IH as [->|(before & after & -> & ->)]; [by left|].
      right. by exists (c :: before), after.
Qed.

Lemma falsy_false a : falsy a = false ↔ ∃ c s, a = Some (c :: s).
Proof.
  destruct a as [[|c s]|]; simpl; split; try done; eauto;
    by intros (? & ? & ?).
Qed.


(** X15. [loginToSlingr] either logs both clients in or leaves them alone.
    When it returns, the two clients carry the same token, which is the
    truthy [token] of the response, and their base URLs are as before. When
    it throws, no client has been touched, and the error is an [Error]
    whose message starts with ["Failed to login to Slingr API: "], whether
    the request failed or the response had no token; the one exception is a
    builder URL that [new URL] rejects, which throws its [TypeError]
    unwrapped, also when [SLINGR_LOGIN_URL] is set and the builder URL is
    not needed. *)
Theorem login_sets_both_tokens_or_none
    (origin : jsstring → option jsstring) (stringify : Value → jsstring)
    (post : jsstring → jsstring → jsstring → AxiosError + AxiosResponse)
    (builder email password : jsstring) (SLINGR_LOGIN_URL : option jsstring)
    (clients : Clients) :
  match loginToSlingr origin stringify post builder email password
          SLINGR_LOGIN_URL clients with
  | (clients', inr _) =>
      ∃ url r,
        post url email password = inr r ∧
        get_optional (data r) "token" = token (builderClient clients') ∧
        token (runtimeClient clients') = token (builderClient clients') ∧
        truthy (token (builderClient clients')) = true ∧
        baseURL (builderClient clients') = baseURL (builderClient clients) ∧
        baseURL (runtimeClient clients') = baseURL (runtimeClient clients)
  | (clients', inl ThrownTypeError) =>
      clients' = clients ∧ origin builder = None
  | (clients', inl (ThrownError message)) =>
      clients' = clients ∧
      ∃ detail,
        message = of_string "Failed to login to Slingr API: " ++ detail
  end ∧
  (origin builder = None →
   (loginToSlingr origin stringify post builder email password
      SLINGR_LOGIN_URL clients).2 = inl ThrownTypeError).
Proof.
  unfold loginToSlingr, attempt, handler.
  destruct (origin builder) as [o|]; [|done]. split; [|done].
  match goal with |- context [post ?u email password] => set (url := u) end.
  destruct (post url email password) as [error|r] eqn:Hpost.
  { split; [done|]. by eexists. }
  destruct (truthy (get_optional (data r) "token")) eqn:Ht; simpl.
  - exists url, r. by rewrite Ht.
  - split; [done|]. by eexists.
Qed.

End ClientSpec.
(* ===================================================================== *)
(** ** [update_entity_permissions] *)
(* ===================================================================== *)

Module PermissionsFacts.
Import Js Value Permissions.

(** *** Objects *)

Lemma lookup_set_field key key' v fields :
  lookup_field key' (set_field key v fields) =
  if decide (key = key') then Some v else lookup_field key' fields.
Proof.
  induction fields as [|[k x] fields IH]; simpl.
  - by destruct (decide (key = key')).
  - destruct (decide (k = key)) as [->|Hk]; simpl.
    + destruct (decide (key = key')); [done|]. done.
    + destruct (decide (k = key')) as [->|]; [|done].
      by rewrite decide_False by done.
Qed.

Lemma lookup_field_None key fields :
  lookup_field key fields = None ↔ key ∉ fields.*1.
Proof.
  induction fields as [|[k x] fields IH]; simpl.
  - split; [intros _ H; by apply elem_of_nil in H|done].
  - destruct (decide (k = key)) as [->|Hk].
    + split; [done|]. intros H. destruct H. left.
    + rewrite IH. split.
      * intros H [?|?]%elem_of_cons; [by subst|done].
      * intros H ?. apply H. by right.
Qed.

(** Spreading [b] over [a]: a name of [b] reads as in [b], any other as in
    [a]. *)
Lemma lookup_spread key a b :
  NoDup b.*1 →
  lookup_field key (spread a b) =
  match lookup_field key b with
  | Some v => Some v
  | None => lookup_field key a
  end.
Proof.
  unfold spread. revert a.
  induction b as [|[k x] b IH]; intros a Hnd; simpl; [done|].
  apply NoDup_cons in Hnd as [Hk Hnd]. simpl in Hk.
  rewrite (IH _ Hnd). destruct (decide (k = key)) as [->|Hne].
  - apply lookup_field_None in Hk. rewrite Hk.
    rewrite lookup_set_field. by rewrite decide_True.
  - destruct (lookup_field key b); [done|].
    rewrite lookup_set_field. by rewrite decide_False.
Qed.

(** *** The predicate and the search *)

Lemma names_group_object g p :
  names_group g p = inr true → ∃ fields, p = VObject fields.
Proof. destruct p; try done. by eexists. Qed.

Lemma names_group_thrown g p e :
  names_group g p = inl e → e = ThrownTypeError ∧ (p = VUndefined ∨ p = VNull).
Proof.
  destruct p; try done; try (intros [= <-]; auto).
  unfold names_group, or_lazy, read, bind. simpl.
  repeat (case_match; try done).
Qed.

Lemma findIndex_from_Some predicate items : ∀ k i,
  findIndex_from k predicate items = inr (Some i) →
  ∃ old, k ≤ i ∧ items !! (i - k) = Some old ∧ predicate old = inr true ∧
         ∀ j p, j < i - k → items !! j = Some p → predicate p = inr false.
Proof.
  induction items as [|p items IH]; intros k i; simpl; [done|].
  destruct (predicate p) as [e|[|]] eqn:Hp; simpl; [done| |].
  - intros [= <-]. exists p. rewrite Nat.sub_diag. split; [lia|].
    split; [done|]. split; [done|]. intros j q Hj. lia.
  - intros (old & Hk & Hold & Hpred & Hbefore)%IH.
    exists old. split; [lia|].
    replace (i - k) with (S (i - S k)) by lia. split; [done|]. split; [done|].
    intros [|j] q Hj; simpl; [by intros [= <-]|].
    intros Hq. apply (Hbefore j q); [lia|done].
Qed.

Lemma findIndex_from_None predicate items : ∀ k,
  findIndex_from k predicate items = inr None →
  Forall (λ p, predicate p = inr false) items.
Proof.
  induction items as [|p items IH]; intros k; simpl; [done|].
  destruct (predicate p) as [e|[|]] eqn:Hp; simpl; [done..|].
  intros H%IH. by constructor.
Qed.

Lemma findIndex_from_thrown predicate items : ∀ k e,
  findIndex_from k predicate items = inl e →
  ∃ p, p ∈ items ∧ predicate p = inl e.
Proof.
  induction items as [|p items IH]; intros k e; simpl; [done|].
  destruct (predicate p) as [e'|[|]] eqn:Hp; simpl; [|done|].
  - intros [= <-]. exists p. split; [left|done].
  - intros (q & Hq & He)%IH. exists q. split; [by right|done].
Qed.

Lemma groupIndex_first_match g items i :
  groupIndex g items = inr i → ∃ old, first_match g items i old.
Proof.
  unfold groupIndex, findIndex, bind.
  destruct (findIndex_from 0 (names_group g) items) as [e|[j|]] eqn:Hf; [done| |done].
  intros [= <-]. apply findIndex_from_Some in Hf as (old & _ & Hold & Hp & Hb).
  rewrite Nat.sub_0_r in Hold, Hb. by exists old.
Qed.

(** *** Reading the array out of the answer *)

Lemma permissionsArray_inv data items :
  permissionsArray data = inr (VArray items) →
  items = [] ∨ data = VArray items ∨
  ∃ fields key,
    data = VObject fields ∧ (key = "items" ∨ key = "permissions") ∧
    lookup_field (of_string key) fields = Some (VArray items) ∧
    (key = "permissions" →
     truthy (default VUndefined (lookup_field (of_string "items") fields)) = false) ∧
    payload_of data = λ array,
      VObject (set_field (of_string key) array fields).
Proof.
  unfold permissionsArray, read, bind.
  destruct data as [| | | | |items0|fields]; try done; simpl;
    try (intros [= <-]; by left).
  { intros [= <-]. right. by left. }
  unfold payload_of, get_optional. simpl.
  destruct (lookup_field (of_string "items") fields) as [v|] eqn:Hi; simpl;
    [destruct (truthy v) eqn:Hv|].
  { intros [= ->]. right. right. exists fields, "items".
    repeat split; auto; done. }
  all: destruct (lookup_field (of_string "permissions") fields) as [v'|] eqn:Hp;
    simpl; [destruct (truthy v') eqn:Hv'|]; try (intros [= <-]; by left).
  all: intros [= ->]; right; right; exists fields, "permissions";
    repeat split; auto; intros _; by rewrite Hi.
Qed.

(** What a payload is made of. *)
Lemma payload_inv input data body :
  payload input data = inr body →
  ∃ items i fields,
    permissionsArray data = inr (VArray items) ∧
    first_match (group input) items i (VObject fields) ∧
    body = payload_of data
             (VArray (<[i := VObject (spread fields (updates input))]> items)).
Proof.
  unfold payload, bind.
  destruct (permissionsArray data) as [e|array] eqn:Ha; [done|].
  destruct (checked array) as [e|items] eqn:Hc; [done|].
  destruct (groupIndex (group input) items) as [e|i] eqn:Hi; [done|].
  intros [= <-].
  assert (array = VArray items) as ->.
  { destruct array as [| | | | |[|p ps]|]; try done. by injection Hc as <-. }
  destruct (groupIndex_first_match _ _ _ Hi) as (old & Hold & Hp & Hb).
  destruct (names_group_object _ _ Hp) as [fields ->].
  exists items, i, fields. split; [done|]. split; [done|].
  unfold updated. by rewrite Hold.
Qed.

End PermissionsFacts.

Module PermissionsSpec.
Import Js Value Permissions PermissionsFacts.

(** X16. [update_entity_permissions] makes one GET and at most one PUT, and
    it PUTs only once it has found the group: when it throws before
    (unreadable answer, empty array, unknown group) nothing has been
    written. The payload of the PUT is the answer to the GET with one
    element changed: the answer is the array itself or an object holding it
    under [items] or [permissions], the payload has the same shape and the
    same other fields, and its array differs from the one received only at
    the first element that names the group, which is an object and is
    replaced by its fields with the updates spread over them. *)
Theorem update_puts_the_answer_with_one_change
    (api_get : jsstring → Client.AxiosError + Client.AxiosResponse)
    (api_put : jsstring → Value → Client.AxiosError + Client.AxiosResponse)
    (stringify : Value → jsstring) (input : Input) :
  let url := permissions_url input in
  let run := execute api_get api_put stringify input in
  (run.1 = [GET (url ++ of_string "?_size=100")] ∧ ∃ thrown, run.2 = inl thrown) ∨
  ∃ response items i fields body,
    run.1 = [GET (url ++ of_string "?_size=100"); PUT url body] ∧
    api_get (url ++ of_string "?_size=100") = inr response ∧
    first_match (group input) items i (VObject fields) ∧
    let changed := <[i := VObject (spread fields (updates input))]> items in
    (Client.data response = VArray items ∧ body = VArray changed) ∨
    (∃ others key,
       (key = "items" ∨ key = "permissions") ∧
       Client.data response = VObject others ∧
       lookup_field (of_string key) others = Some (VArray items) ∧
       body = VObject (set_field (of_string key) (VArray changed) others)).
Proof.
  intros url run. subst run. unfold execute. fold url.
  destruct (api_get (url ++ of_string "?_size=100")) as [error|response] eqn:Hget.
  { left. split; [done|]. by eexists. }
  destruct (payload input (Client.data response)) as [thrown|body] eqn:Hbody.
  { left. split; [done|]. by eexists. }
  right. apply payload_inv in Hbody as (items & i & fields & Ha & Hm & ->).
  exists response, items, i, fields. eexists.
  split; [by destruct (api_put url _)|]. split; [done|]. split; [done|].
  destruct (permissionsArray_inv _ _ Ha)
    as [->|[Hd|(others & key & Hd & Hkey & Hl & _ & ->)]].
  - destruct Hm as [Hi _]. by rewrite lookup_nil in Hi.
  - left. by rewrite Hd.
  - right. by exists others, key.
Qed.

(** X17. The payload reads back as the answer did: the array the tool
    would take out of its own payload has the length of the one it took out
    of the answer and the same elements, except at the first element that
    names the group; there, every name the updates give reads as in the
    updates, and every other name reads as in the old element. *)
Theorem payload_reads_back (input : Input) (data body : Value) :
  NoDup (updates input).*1 →
  payload input data = inr body →
  ∃ items items' i old new,
    permissionsArray data = inr (VArray items) ∧
    permissionsArray body = inr (VArray items') ∧
    length items' = length items ∧
    first_match (group input) items i (VObject old) ∧
    items' !! i = Some (VObject new) ∧
    (∀ j, j ≠ i → items' !! j = items !! j) ∧
    (∀ key, lookup_field key new =
            match lookup_field key (updates input) with
            | Some v => Some v
            | None => lookup_field key old
            end).
Proof.
  intros Hnd (items & i & old & Ha & Hm & ->)%payload_inv.
  set (new := spread old (updates input)).
  exists items, (<[i := VObject new]> items), i, old, new.
  split; [done|].
  assert (i < length items) as Hi.
  { destruct Hm as [Hi _]. by apply lookup_lt_Some in Hi. }
  split; [|split; [by rewrite length_insert|split; [done|split; [|split]]]].
  - destruct (permissionsArray_inv _ _ Ha)
      as [->|[->|(others & key & -> & Hkey & Hl & Hfalsy & ->)]].
    + simpl in Hi. lia.
    + done.
    + unfold permissionsArray, read, bind. simpl.
      destruct Hkey as [-> | ->].
      * rewrite lookup_set_field. by rewrite decide_True.
      * rewrite !lookup_set_field. rewrite decide_False by done.
        rewrite (Hfalsy eq_refl). by rewrite decide_True.
  - by apply list_lookup_insert_eq.
  - intros j Hj. by apply list_lookup_insert_ne.
  - intros key. by apply lookup_spread.
Qed.

Lemma payload_reads_back_witness :
  ∃ items items' i old new,
    permissionsArray PermissionsExamples.answer = inr (VArray items) ∧
    permissionsArray PermissionsExamples.sent = inr (VArray items') ∧
    length items' = length items ∧
    first_match (group PermissionsExamples.request) items i (VObject old) ∧
    items' !! i = Some (VObject new) ∧
    (∀ j, j ≠ i → items' !! j = items !! j) ∧
    (∀ key, lookup_field key new =
            match lookup_field key (updates PermissionsExamples.request) with
            | Some v => Some v
            | None => lookup_field key old
            end).
Proof.
  apply (payload_reads_back PermissionsExamples.request
           PermissionsExamples.answer PermissionsExamples.sent).
  - by_computation.
  - by vm_compute.
Defined.

(** X18. What [update_entity_permissions] throws between the GET and the
    PUT. A [TypeError] comes from an answer that is [null] or from a [null]
    element in the array; the "could not parse" error from an answer that
    gives no array or an empty one; the "not found" error, which quotes the
    group, from an array in which no element names it. A truthy [items]
    hides [permissions]: if it is not an array with an element, the answer
    is refused even if [permissions] holds the groups. *)
Theorem update_refuses_what_it_cannot_read (input : Input) (data : Value) :
  (payload input data = inl ThrownTypeError →
   data = VUndefined ∨ data = VNull ∨
   ∃ items, permissionsArray data = inr (VArray items) ∧
            (VUndefined ∈ items ∨ VNull ∈ items)) ∧
  (∀ message, payload input data = inl (ThrownError message) →
     (message = cannot_parse_message ∧
      ∃ array, permissionsArray data = inr array ∧
               ∀ p ps, array ≠ VArray (p :: ps)) ∨
     (message = not_found_message (group input) ∧
      ∃ items, permissionsArray data = inr (VArray items) ∧
               Forall (λ p, names_group (group input) p = inr false) items)) ∧
  (∀ error, payload input data ≠ inl (Rejected error)) ∧
  (∀ others v,
     data = VObject others →
     lookup_field (of_string "items") others = Some v →
     truthy v = true → (∀ p ps, v ≠ VArray (p :: ps)) →
     payload input data = inl (ThrownError cannot_parse_message)).
Proof.
  assert (∀ thrown, payload input data = inl thrown →
            (thrown = ThrownTypeError ∧ (data = VUndefined ∨ data = VNull)) ∨
            (thrown = ThrownError cannot_parse_message ∧
             ∃ array, permissionsArray data = inr array ∧
                      ∀ p ps, array ≠ VArray (p :: ps)) ∨
            (∃ items, permissionsArray data = inr (VArray items) ∧
               ((thrown = ThrownTypeError ∧ (VUndefined ∈ items ∨ VNull ∈ items)) ∨
                (thrown = ThrownError (not_found_message (group input)) ∧
                 Forall (λ p, names_group (group input) p = inr false) items))))
    as Hcases.
  { intros thrown. unfold payload, bind.
    destruct (permissionsArray data) as [e|array] eqn:Ha.
    { intros [= <-]. left. revert Ha. unfold permissionsArray, read, bind.
      destruct data; simpl; try done; try (intros [= <-]; auto);
        repeat case_match; done. }
    destruct (checked array) as [e|items] eqn:Hc.
    { intros [= <-]. right. left.
      destruct array as [| | | | |[|p ps]|]; try done;
        injection Hc as <-; (split; [done|]); eexists; (split; [done|]); done. }
    assert (array = VArray items) as ->.
    { destruct array as [| | | | |[|p ps]|]; try done. by injection Hc as <-. }
    unfold groupIndex, findIndex, bind.
    destruct (findIndex_from 0 (names_group (group input)) items)
      as [e|[i|]] eqn:Hf; [| done |].
    - intros [= <-]. right. right. exists items. split; [done|]. left.
      apply findIndex_from_thrown in Hf as (p & Hp & He).
      apply names_group_thrown in He as [-> [-> | ->]]; auto.
    - intros [= <-]. right. right. exists items. split; [done|]. right.
      split; [done|]. by eapply findIndex_from_None. }
  split; [|split; [|split]].
  - intros [[_ [?|?]]|[[? _]|(items & Ha & [[_ H]|[? _]])]]%Hcases; eauto; done.
  - intros message [[? _]|[[[= <-] H]|(items & Ha & [[? _]|[[= <-] H]])]]%Hcases;
      try done; [left|right]; eauto.
  - intros error [[? _]|[[? _]|(items & Ha & [[? _]|[? _]])]]%Hcases; done.
  - intros others v -> Hl Hv Hna. unfold payload, permissionsArray, read, bind.
    simpl. rewrite Hl. simpl. rewrite Hv.
    destruct v as [| | | | |[|p ps]|]; try done. by destruct (Hna p ps).
Qed.

End PermissionsSpec.
(* ===================================================================== *)
(** ** [get_entity_permissions] and [update_entity_permissions] *)
(* ===================================================================== *)

Module ShowPermissionsFacts.
Import Js Value Permissions PermissionsFacts ShowPermissions.

(** [filter] and [findIndex] walk the array with the same predicate: the
    first element kept is the one found. *)
Lemma filter_findIndex predicate items : ∀ k kept,
  filter predicate items = inr kept →
  length kept ≤ length items ∧
  match kept with
  | [] => findIndex_from k predicate items = inr None
  | p :: _ =>
      ∃ i, findIndex_from k predicate items = inr (Some (k + i)) ∧
           items !! i = Some p
  end.
Proof.
  induction items as [|q items IH]; intros k kept; simpl.
  { intros [= <-]. done. }
  destruct (predicate q) as [e|keep] eqn:Hq; simpl; [done|].
  destruct (filter predicate items) as [e|rest] eqn:Hrest; simpl; [done|].
  intros [= <-]. destruct (IH (S k) rest eq_refl) as [Hlen Hrest'].
  destruct keep; simpl.
  - split; [lia|]. exists 0. by rewrite Nat.add_0_r.
  - split; [lia|]. destruct rest as [|p rest]; [done|].
    destruct Hrest' as (i & Hi & Hp). exists (S i).
    split; [|done]. by replace (k + S i) with (S k + i) by lia.
Qed.

Lemma map_head f items mapped :
  map f items = inr mapped →
  length mapped = length items ∧
  ∀ c, head mapped = Some c → ∃ p, head items = Some p ∧ f p = inr c.
Proof.
  destruct items as [|p items]; simpl.
  { intros [= <-]. done. }
  destruct (f p) as [e|x] eqn:Hp; simpl; [done|].
  destruct (map f items) as [e|rest] eqn:Hrest; simpl; [done|].
  intros [= <-]. split.
  - simpl. f_equal. clear Hp. revert rest Hrest.
    induction items as [|q items IH]; intros rest; simpl.
    { by intros [= <-]. }
    destruct (f q) as [e|y]; simpl; [done|].
    destruct (map f items) as [e|rest'] eqn:Hrest'; simpl; [done|].
    intros [= <-]. simpl. f_equal. by apply IH.
  - intros c [= <-]. by exists p.
Qed.

Lemma lookup_copy_type key key' p cleaned :
  of_string key ≠ key' →
  lookup_field key' (copy_type key p cleaned) = lookup_field key' cleaned.
Proof.
  intros Hne. unfold copy_type. case_match; [|done].
  rewrite lookup_set_field. by rewrite decide_False.
Qed.

Lemma lookup_copy_entries key key' entry p cleaned cleaned' :
  of_string key ≠ key' →
  copy_entries key entry p cleaned = inr cleaned' →
  lookup_field key' cleaned' = lookup_field key' cleaned.
Proof.
  intros Hne. unfold copy_entries, bind.
  destruct (get_optional p key); try (by intros [= <-]).
  destruct (map entry items); [done|]. intros [= <-].
  rewrite lookup_set_field. by rewrite decide_False.
Qed.

(** A cleaned item keeps the [id], [name] and [label] of the item. *)
Lemma cleaned_item_keeps p c :
  cleaned_item p = inr c →
  get c "id" = get p "id" ∧ get c "name" = get p "name" ∧
  get c "label" = get p "label".
Proof.
  unfold cleaned_item, read, bind.
  destruct (get p "id") as [id|] eqn:Hid; [|done].
  destruct (get p "name") as [name|] eqn:Hname; [|done].
  destruct (get p "label") as [label|] eqn:Hlabel; [|done].
  match goal with
  | |- context [copy_entries "fields" field_entry p ?c0] => set (cleaned := c0)
  end.
  destruct (copy_entries "fields" field_entry p cleaned) as [e|c1] eqn:H1; [done|].
  destruct (copy_entries "actions" action_entry p c1) as [e|c2] eqn:H2; [done|].
  intros [= <-]. unfold get.
  assert (∀ key', of_string "canSeeAuditLogs" ≠ key' →
                  of_string "canDelete" ≠ key' → of_string "canEdit" ≠ key' →
                  of_string "canAccess" ≠ key' → of_string "canCreate" ≠ key' →
                  of_string "fields" ≠ key' → of_string "actions" ≠ key' →
                  lookup_field key' c2 =
                  lookup_field key' [ (of_string "id", id); (of_string "name", name);
                                      (of_string "label", label) ]) as Hkeep.
  { intros key' ? ? ? ? ? Hf Ha.
    rewrite (lookup_copy_entries "actions" key' _ _ _ _ Ha H2).
    rewrite (lookup_copy_entries "fields" key' _ _ _ _ Hf H1).
    subst cleaned. by rewrite !lookup_copy_type by done. }
  rewrite !Hkeep by done. done.
Qed.

End ShowPermissionsFacts.

Module ShowPermissionsSpec.
Import Js Value Permissions PermissionsFacts ShowPermissions ShowPermissionsFacts.

(** X19. The two permission tools agree on what a group is. For an answer
    with an array under [items] and a group that is not empty: if
    [get_entity_permissions] shows no item for the group,
    [update_entity_permissions] refuses the same answer with an [Error] and
    writes nothing; if it shows some, the update goes through to its
    payload, and the element it changes, the first that names the group, is
    the one whose [id], [name] and [label] the first item shown carries.
    No more items are shown than the answer holds. *)
Theorem tools_agree_on_the_group (entity g : jsstring)
    (changes : list (jsstring * Value)) (data result : Value)
    (items : list Value) :
  g ≠ [] →
  get_optional data "items" = VArray items →
  resultData {| ShowPermissions.entityId := entity;
                ShowPermissions.group := Some g |} data = inr result →
  ∃ shown,
    get result "items" = Some (VArray shown) ∧
    length shown ≤ length items ∧
    match shown with
    | [] =>
        ∃ message,
          payload {| Permissions.entityId := entity; Permissions.group := g;
                     Permissions.updates := changes |} data
          = inl (ThrownError message)
    | first :: _ =>
        ∃ body i old,
          payload {| Permissions.entityId := entity; Permissions.group := g;
                     Permissions.updates := changes |} data
          = inr body ∧
          first_match g items i old ∧
          get first "id" = get old "id" ∧ get first "name" = get old "name" ∧
          get first "label" = get old "label"
    end.
Proof.
  intros Hg Hitems.
  assert (∃ fields, data = VObject fields ∧
                    lookup_field (of_string "items") fields = Some (VArray items))
    as (fields & -> & Hl).
  { destruct data; try done. unfold get_optional in Hitems. simpl in Hitems.
    eexists. split; [done|].
    destruct (lookup_field _ _) as [v|]; simpl in Hitems; by simplify_eq. }
  unfold resultData, filtering. simpl.
  unfold get_optional. simpl. rewrite Hl. simpl.
  destruct g as [|c g]; [done|]. unfold bind at 1.
  destruct (filter (names_group (c :: g)) items) as [e|kept] eqn:Hkept; [done|].
  unfold bind.
  destruct (map cleaned_item kept) as [e|shown] eqn:Hshown; [done|].
  intros [= <-]. exists shown. simpl. rewrite lookup_set_field.
  rewrite decide_True by done. split; [done|].
  destruct (filter_findIndex _ _ 0 _ Hkept) as [Hlen Hfirst].
  destruct (map_head _ _ _ Hshown) as [Hlen' Hhead].
  split; [lia|].
  unfold payload, permissionsArray, read, bind. simpl. rewrite Hl. simpl.
  destruct shown as [|first shown].
  - destruct kept; [|done].
    destruct items as [|p items]; simpl; [by eexists|].
    unfold groupIndex, findIndex, bind. rewrite Hfirst. by eexists.
  - destruct kept as [|old kept]; [done|].
    destruct (Hhead first eq_refl) as (old' & [= <-] & Hclean).
    destruct Hfirst as (i & Hfind & Hold). rewrite Nat.add_0_l in Hfind.
    destruct items as [|p items]; [done|]. cbn [checked].
    unfold groupIndex, findIndex, bind. rewrite Hfind. simpl.
    apply findIndex_from_Some in Hfind as (old' & _ & Hold' & Hp & Hb).
    rewrite Nat.sub_0_r in Hold', Hb. rewrite Hold in Hold'. injection Hold' as <-.
    eexists _, i, old. split; [done|]. split; [done|].
    by apply cleaned_item_keeps.
Qed.

Lemma tools_agree_on_the_group_witness :
  ∃ shown,
    get PermissionsExamples.shown_to_admin "items" = Some (VArray shown) ∧
    length shown ≤ 2 ∧
    match shown with
    | [] =>
        ∃ message,
          payload PermissionsExamples.request PermissionsExamples.answer
          = inl (ThrownError message)
    | first :: _ =>
        ∃ body i old,
          payload PermissionsExamples.request PermissionsExamples.answer
          = inr body ∧
          first_match (of_string "admin")
            [ PermissionsExamples.group_of "guest" "NEVER";
              PermissionsExamples.group_of "admin" "NEVER" ] i old ∧
          get first "id" = get old "id" ∧ get first "name" = get old "name" ∧
          get first "label" = get old "label"
    end.
Proof.
  apply (tools_agree_on_the_group (of_string "contacts") (of_string "admin")
           [ (of_string "canEdit", VString (of_string "ALWAYS")) ]
           PermissionsExamples.answer PermissionsExamples.shown_to_admin
           [ PermissionsExamples.group_of "guest" "NEVER";
             PermissionsExamples.group_of "admin" "NEVER" ]);
    by vm_compute.
Defined.

(** X20. Without a group, [get_entity_permissions] gives back what it got:
    an answer that is an array, or an object without an array under
    [items], is returned as it is, and an empty group is no group. *)
Theorem no_group_returns_the_answer (entity : jsstring) (data : Value) :
  resultData {| ShowPermissions.entityId := entity;
                ShowPermissions.group := Some [] |} data =
  resultData {| ShowPermissions.entityId := entity;
                ShowPermissions.group := None |} data ∧
  (isArray data = true →
   resultData {| ShowPermissions.entityId := entity;
                 ShowPermissions.group := None |} data = inr data) ∧
  (∀ fields,
     data = VObject fields →
     (∀ items, lookup_field (of_string "items") fields ≠ Some (VArray items)) →
     resultData {| ShowPermissions.entityId := entity;
                   ShowPermissions.group := None |} data = inr data).
Proof.
  split; [done|]. split.
  - by destruct data.
  - intros fields -> Hno. unfold resultData, get_optional. simpl.
    destruct (lookup_field (of_string "items") fields) as [v|] eqn:Hl; [|done].
    simpl. destruct v; try done. by destruct (Hno items).
Qed.

End ShowPermissionsSpec.
